(** * A shallow embedding of the AHI codec (mdsteele/ahi)

    The byte stream read by the Rust code is a [list Z] of byte values;
    a reader consumes a prefix of it and returns the value read together
    with the rest of the stream, as [std::io::Read] does.  Writers return
    the bytes they emit. *)

From Stdlib Require Import ZArith List Lia String Ascii Bool.
Import ListNotations.
Open Scope Z_scope.

(** ** Bytes, errors and the reader monad *)

(** The bytes of an ASCII literal such as [b"ahi"]. *)
Definition bs (s : string) : list Z :=
  map (fun a => Z.of_nat (nat_of_ascii a)) (list_ascii_of_string s).

(** The error messages of the crate, one constructor per message. *)
Inductive error : Type :=
| UnexpectedEof                       (* read_exact past the end *)
| UnexpectedToken (expected actual : list Z)   (* read_exactly *)
| MissingDigits                       (* "missing integer field in header" *)
| MisplacedSign                       (* "misplaced minus sign in header field" *)
| InvalidDigit (b : Z)                (* "invalid byte in header field" *)
| ValueTooLarge                       (* "header value is too large" *)
| NegativeNotAllowed (v : Z)          (* "value must be nonnegative" *)
| InvalidHexDigit (b : Z)             (* "invalid hex digit" *)
| MissingHexLiteral                   (* "missing hex literal" *)
| HexLiteralTooLarge                  (* "hex literal is too large" *)
| TooManyPaletteDigits                (* "too many digits in palette color" *)
| InvalidPixelCharacter (b : Z)       (* "invalid pixel character" *)
| InvalidCharLiteralByte (b : Z)      (* "invalid char literal byte" *)
| InvalidCharEscape (b : Z)           (* "invalid char escape" *)
| InvalidUnicodeScalar (v : Z)        (* "invalid unicode value" *)
| EmptyCharLiteral                    (* "empty char literal" *)
| ListMissingInteger                  (* "missing integer in list" *)
| ListMisplacedSign                   (* "misplaced minus sign in integer list" *)
| ListInvalidByte (b : Z)             (* "invalid byte in list integer" *)
| ListIntegerOutOfRange               (* "list integer value is out of range" *)
| UnsupportedVersion (v : Z).         (* "unsupported AHI version" *)

(** [io::Result], plus [Diverges] for a call that never returns (a loop
    that makes no progress, see [list_loop]). *)
Inductive res (A : Type) : Type :=
| Ok (a : A)
| Err (e : error)
| Diverges.
Arguments Ok {A} a.
Arguments Err {A} e.
Arguments Diverges {A}.

Definition reader (A : Type) : Type := list Z -> res (A * list Z).

Definition ret {A} (a : A) : reader A := fun s => Ok (a, s).
Definition fail {A} (e : error) : reader A := fun _ => Err e.
Definition bind {A B} (m : reader A) (k : A -> reader B) : reader B :=
  fun s => match m s with
           | Ok (a, s') => k a s'
           | Err e => Err e
           | Diverges => Diverges
           end.
Notation "x <- m ;; k" := (bind m (fun x => k))
  (at level 61, m at next level, right associativity).
Notation "m ;;; k" := (bind m (fun _ => k))
  (at level 61, right associativity).

(** [Read::read_exact] of a buffer of [n] bytes. *)
Fixpoint read_exact (n : nat) : reader (list Z) :=
  fun s =>
    match n with
    | O => Ok ([], s)
    | S n' =>
        match s with
        | [] => Err UnexpectedEof
        | b :: s' =>
            match read_exact n' s' with
            | Ok (bs', s'') => Ok (b :: bs', s'')
            | Err e => Err e
            | Diverges => Diverges
            end
        end
    end.

Fixpoint list_Z_eqb (l1 l2 : list Z) : bool :=
  match l1, l2 with
  | [], [] => true
  | x :: l1', y :: l2' => (x =? y) && list_Z_eqb l1' l2'
  | _, _ => false
  end.

(** [util::read_exactly]. *)
Definition read_exactly (expected : list Z) : reader unit :=
  actual <- read_exact (List.length expected) ;;
  if list_Z_eqb actual expected then ret tt
  else fail (UnexpectedToken expected actual).

(** A one-byte [read_exact], as [read_char_escape] does it. *)
Definition read_byte : reader Z :=
  buffer <- read_exact 1 ;; ret (hd 0 buffer).

(** ** util.rs: header integers *)

Definition MAX_HEADER_VALUE : Z := 65535.

Definition is_ascii_digit (b : Z) : bool := (48 <=? b) && (b <=? 57).

(** The [for next in reader.bytes()] loop of [read_header_int], with its
    three mutable locals.  The value stays below 0x10000 before each
    multiplication, so the [i32] arithmetic never wraps. *)
Fixpoint header_int_loop (terminator : Z) (negative any_digits : bool)
         (value : Z) (s : list Z) : res (Z * list Z) :=
  match s with
  | [] => Ok (if negative then - value else value, [])
  | byte :: s' =>
      if byte =? terminator then
        if negb any_digits then Err MissingDigits
        else Ok (if negative then - value else value, s')
      else if byte =? 45 then
        if negative || any_digits then Err MisplacedSign
        else header_int_loop terminator true any_digits value s'
      else if (byte <? 48) || (57 <? byte) then Err (InvalidDigit byte)
      else
        let value' := value * 10 + (byte - 48) in
        if MAX_HEADER_VALUE <? value' then Err ValueTooLarge
        else header_int_loop terminator negative true value' s'
  end.

Definition read_header_int (terminator : Z) : reader Z :=
  header_int_loop terminator false false 0.

Definition read_header_uint (terminator : Z) : reader Z :=
  value <- read_header_int terminator ;;
  if value <? 0 then fail (NegativeNotAllowed value) else ret value.

(** ** util.rs: hex digits *)

Definition hex_digit_value (byte : Z) : option Z :=
  if (48 <=? byte) && (byte <=? 57) then Some (byte - 48)
  else if (97 <=? byte) && (byte <=? 102) then Some (byte - 97 + 10)
  else if (65 <=? byte) && (byte <=? 70) then Some (byte - 65 + 10)
  else None.

Fixpoint read_hex_digits (terminator : Z) (s : list Z)
  : res (list Z * list Z) :=
  match s with
  | [] => Ok ([], [])
  | byte :: s' =>
      if byte =? terminator then Ok ([], s')
      else match hex_digit_value byte with
           | None => Err (InvalidHexDigit byte)
           | Some d =>
               match read_hex_digits terminator s' with
               | Ok (ds, r) => Ok (d :: ds, r)
               | Err e => Err e
               | Diverges => Diverges
               end
           end
  end.

Definition hex_value (digits : list Z) : Z :=
  fold_left (fun v d => v * 16 + d) digits 0.

(** At most eight digits are folded, so the [u32] never wraps. *)
Definition read_hex_u32 (terminator : Z) : reader Z :=
  digits <- read_hex_digits terminator ;;
  match digits with
  | [] => fail MissingHexLiteral
  | _ => if (8 <? Z.of_nat (List.length digits))%Z then fail HexLiteralTooLarge
         else ret (hex_value digits)
  end.

(** ** util.rs: char escapes, quoted strings and integer lists *)

(** [char::from_u32] succeeds exactly on Unicode scalar values. *)
Definition char_from_u32_ok (v : Z) : bool :=
  ((0 <=? v) && (v <? 55296)) || ((57343 <? v) && (v <=? 1114111)).

(** A [char] is modelled by its scalar value. *)
Definition read_char_escape (quote : Z) : reader (option Z) :=
  byte <- read_byte ;;
  if byte =? quote then ret None
  else if byte =? 92 then
    esc <- read_byte ;;
    if esc =? 92 then ret (Some 92)
    else if esc =? 39 then ret (Some 39)
    else if esc =? 34 then ret (Some 34)
    else if esc =? 110 then ret (Some 10)
    else if esc =? 114 then ret (Some 13)
    else if esc =? 116 then ret (Some 9)
    else if esc =? 117 then
      read_exactly (bs "{") ;;;
      value <- read_hex_u32 125 ;;
      if char_from_u32_ok value then ret (Some value)
      else fail (InvalidUnicodeScalar value)
    else fail (InvalidCharEscape esc)
  else if (byte <? 32) || (126 <? byte) then fail (InvalidCharLiteralByte byte)
  else ret (Some byte).

(** The [while let Some(chr) = read_char_escape(..)] loop.  Every call of
    [read_char_escape] that returns consumes at least one byte, so [fuel]
    one above the length of the input is never exhausted. *)
Fixpoint quoted_string_loop (fuel : nat) (acc : list Z) : reader (list Z) :=
  match fuel with
  | O => fun _ => Diverges
  | S fuel' =>
      chr <- read_char_escape 34 ;;
      match chr with
      | Some c => quoted_string_loop fuel' (acc ++ [c])
      | None => ret acc
      end
  end.

Definition read_quoted_string : reader (list Z) :=
  read_exactly [34] ;;;
  fun s => quoted_string_loop (S (List.length s)) [] s.

Definition read_quoted_char : reader Z :=
  read_exactly (bs "'") ;;;
  chr <- read_char_escape 39 ;;
  match chr with
  | Some c => read_exactly (bs "'") ;;; ret c
  | None => fail EmptyCharLiteral
  end.

(** The inner [for byte in reader.by_ref().bytes()] loop of
    [read_list_of_i16s].  It returns the locals [negative], [any_digits],
    [value] and whether it set [done]. *)
Fixpoint list_int_loop (values_empty negative any_digits : bool) (value : Z)
         (s : list Z) : res ((bool * bool * Z * bool) * list Z) :=
  match s with
  | [] => Ok ((negative, any_digits, value, false), [])
  | byte :: s' =>
      if (byte =? 93) || (byte =? 44) then
        if negb any_digits && ((byte =? 44) || negb values_empty) then
          Err ListMissingInteger
        else Ok ((negative, any_digits, value, byte =? 93), s')
      else if byte =? 45 then
        if negative || any_digits then Err ListMisplacedSign
        else list_int_loop values_empty true any_digits value s'
      else if (byte <? 48) || (57 <? byte) then Err (ListInvalidByte byte)
      else
        let value' := value * 10 + (byte - 48) in
        if 32768 <? value' then Ok ((negative, true, value', false), s')
        else list_int_loop values_empty negative true value' s'
  end.

(** The [while !done] loop (release build: the [debug_assert!]s are
    compiled out).  An iteration that reads no byte leaves every local as
    it was, so the loop then runs forever; every other iteration consumes
    at least one byte.  Running out of [fuel] is that non-termination. *)
Fixpoint list_loop (fuel : nat) (values : list Z) : reader (list Z) :=
  match fuel with
  | O => fun _ => Diverges
  | S fuel' =>
      st <- (fun s => list_int_loop (match values with [] => true | _ => false end)
                                    false false 0 s) ;;
      let '(negative, any_digits, value, done) := st in
      if any_digits then
        let value := if negative then - value else value in
        if (32767 <? value) || (value <? -32768) then fail ListIntegerOutOfRange
        else
          let values := values ++ [value] in
          if done then ret values
          else read_exactly (bs " ") ;;; list_loop fuel' values
      else if done then ret values
      else list_loop fuel' values
  end.

Definition read_list_of_i16s : reader (list Z) :=
  read_exactly (bs "[") ;;;
  fun s => list_loop (S (List.length s)) [] s.

(** ** color.rs *)

Inductive Color : Type :=
| Transparent | Black | DarkRed | Red | DarkGreen | Green | DarkYellow
| Yellow | DarkBlue | Blue | DarkMagenta | Magenta | DarkCyan | Cyan
| Gray | White.

Definition Color_index (c : Color) : Z :=
  match c with
  | Transparent => 0 | Black => 1 | DarkRed => 2 | Red => 3
  | DarkGreen => 4 | Green => 5 | DarkYellow => 6 | Yellow => 7
  | DarkBlue => 8 | Blue => 9 | DarkMagenta => 10 | Magenta => 11
  | DarkCyan => 12 | Cyan => 13 | Gray => 14 | White => 15
  end.

Definition Color_to_byte (c : Color) : Z :=
  match c with
  | Transparent => 48 | Black => 49 | DarkRed => 50 | Red => 51
  | DarkGreen => 52 | Green => 53 | DarkYellow => 54 | Yellow => 55
  | DarkBlue => 56 | Blue => 57 | DarkMagenta => 65 | Magenta => 66
  | DarkCyan => 67 | Cyan => 68 | Gray => 69 | White => 70
  end.

Definition Color_from_byte (byte : Z) : res Color :=
  if byte =? 48 then Ok Transparent
  else if byte =? 49 then Ok Black
  else if byte =? 50 then Ok DarkRed
  else if byte =? 51 then Ok Red
  else if byte =? 52 then Ok DarkGreen
  else if byte =? 53 then Ok Green
  else if byte =? 54 then Ok DarkYellow
  else if byte =? 55 then Ok Yellow
  else if byte =? 56 then Ok DarkBlue
  else if byte =? 57 then Ok Blue
  else if byte =? 65 then Ok DarkMagenta
  else if byte =? 66 then Ok Magenta
  else if byte =? 67 then Ok DarkCyan
  else if byte =? 68 then Ok Cyan
  else if byte =? 69 then Ok Gray
  else if byte =? 70 then Ok White
  else Err (InvalidPixelCharacter byte).

(** ** Formatting ([write!] with [{}], [{:X}], [{:02X}]) *)

(** Enough rounds for the digits of [n] in any base of at least 2. *)
Definition digits_fuel (n : Z) : nat :=
  match n with Zpos p => Pos.size_nat p | _ => O end.

(** Digits of [n], least significant first. *)
Fixpoint digits_rev (base : Z) (fuel : nat) (n : Z) : list Z :=
  match fuel with
  | O => [n]
  | S fuel' =>
      if n <? base then [n] else (n mod base) :: digits_rev base fuel' (n / base)
  end.

(** The digits of a nonnegative [n] in [base], without leading zeros. *)
Definition digits_of (base n : Z) : list Z := rev (digits_rev base (digits_fuel n) n).

Definition hex_upper (d : Z) : Z := if d <? 10 then 48 + d else 55 + d.
Definition hex_lower (d : Z) : Z := if d <? 10 then 48 + d else 87 + d.

(** [{:0wX}]: upper-case hex, zero-padded to at least [w] digits. *)
Definition fmt_X (w : nat) (n : Z) : list Z :=
  let ds := digits_of 16 n in
  map hex_upper (repeat 0 (w - List.length ds) ++ ds).

(** [{}] of an unsigned integer. *)
Definition fmt_dec (n : Z) : list Z := map (fun d => 48 + d) (digits_of 10 n).

(** [{}] of an [i16]. *)
Definition fmt_i16 (v : Z) : list Z :=
  if v <? 0 then 45 :: fmt_dec (- v) else fmt_dec v.

(** [char::escape_default]. *)
Definition escape_default (c : Z) : list Z :=
  if c =? 9 then [92; 116]
  else if c =? 13 then [92; 114]
  else if c =? 10 then [92; 110]
  else if (c =? 92) || (c =? 39) || (c =? 34) then [92; c]
  else if (32 <=? c) && (c <=? 126) then [c]
  else [92; 117; 123] ++ map hex_lower (digits_of 16 c) ++ [125].

(** ** palette.rs *)

Definition rgba : Type := (Z * Z * Z * Z)%type.

(** [Palette { rgba: [(u8, u8, u8, u8); 16] }] *)
Record Palette : Type := mkPalette { palette_rgba : list rgba }.

(** The [match digits.len()] of [Palette::read]: the digit values are at
    most 15, so the [u8] arithmetic never wraps. *)
Definition slot_of_digits (digits : list Z) : res rgba :=
  match digits with
  | [] => Ok (0, 0, 0, 0)
  | [d0] => let gray := d0 * 17 in Ok (gray, gray, gray, 255)
  | [d0; d1] => let gray := d0 * 16 + d1 in Ok (gray, gray, gray, 255)
  | [d0; d1; d2] => Ok (d0 * 17, d1 * 17, d2 * 17, 255)
  | [d0; d1; d2; d3] => Ok (d0 * 17, d1 * 17, d2 * 17, d3 * 17)
  | [d0; d1; d2; d3; d4] => Ok (d0 * 17, d1 * 17, d2 * 17, d3 * 16 + d4)
  | [d0; d1; d2; d3; d4; d5] =>
      Ok (d0 * 16 + d1, d2 * 16 + d3, d4 * 16 + d5, 255)
  | [d0; d1; d2; d3; d4; d5; d6] =>
      Ok (d0 * 16 + d1, d2 * 16 + d3, d4 * 16 + d5, d6 * 17)
  | [d0; d1; d2; d3; d4; d5; d6; d7] =>
      Ok (d0 * 16 + d1, d2 * 16 + d3, d4 * 16 + d5, d6 * 16 + d7)
  | _ => Err TooManyPaletteDigits
  end.

Definition palette_terminator (index : Z) : Z := if index =? 15 then 10 else 59.

(** One slot of [Palette::read]. *)
Definition read_slot (terminator : Z) : reader rgba :=
  digits <- read_hex_digits terminator ;;
  fun s => match slot_of_digits digits with
           | Ok v => Ok (v, s)
           | Err e => Err e
           | Diverges => Diverges
           end.

Fixpoint read_slots (n : nat) (index : Z) : reader (list rgba) :=
  match n with
  | O => ret []
  | S n' =>
      v <- read_slot (palette_terminator index) ;;
      vs <- read_slots n' (index + 1) ;;
      ret (v :: vs)
  end.

Definition Palette_read : reader Palette :=
  slots <- read_slots 16 0 ;; ret (mkPalette slots).

(** One slot of [Palette::write]. *)
Definition write_slot (c : rgba) : list Z :=
  let '(r, g, b, a) := c in
  let short := (r mod 17 =? 0) && (g mod 17 =? 0) && (b mod 17 =? 0) in
  if a =? 0 then []
  else if a =? 255 then
    if (r =? g) && (g =? b) then
      if r mod 17 =? 0 then fmt_X 1 (r / 17) else fmt_X 2 r
    else if short then fmt_X 1 (r / 17) ++ fmt_X 1 (g / 17) ++ fmt_X 1 (b / 17)
    else fmt_X 2 r ++ fmt_X 2 g ++ fmt_X 2 b
  else if a mod 17 =? 0 then
    if short then
      fmt_X 1 (r / 17) ++ fmt_X 1 (g / 17) ++ fmt_X 1 (b / 17) ++ fmt_X 1 (a / 17)
    else fmt_X 2 r ++ fmt_X 2 g ++ fmt_X 2 b ++ fmt_X 1 (a / 17)
  else if short then
    fmt_X 1 (r / 17) ++ fmt_X 1 (g / 17) ++ fmt_X 1 (b / 17) ++ fmt_X 2 a
  else fmt_X 2 r ++ fmt_X 2 g ++ fmt_X 2 b ++ fmt_X 2 a.

Fixpoint write_slots (index : Z) (slots : list rgba) : list Z :=
  match slots with
  | [] => []
  | c :: cs => write_slot c ++ [palette_terminator index] ++ write_slots (index + 1) cs
  end.

Definition Palette_write (p : Palette) : list Z := write_slots 0 (palette_rgba p).

(** ** The images of a collection

    [Collection] uses an [Image] with a tag and metadata and reads and
    writes each image's grid with [Image::read] and [Image::write]; that
    version of image.rs is not under src/ (the image.rs there is the older
    [read_all]/[write_all] one, embedded further below). *)

Record Image : Type := mkImage {
  width : Z;              (* u32 *)
  height : Z;             (* u32 *)
  pixels : list Color;
  tag : list Z;           (* String, as its chars' scalar values *)
  metadata : list Z       (* Vec<i16> *)
}.

Fixpoint colors_of_bytes (row : list Z) : res (list Color) :=
  match row with
  | [] => Ok []
  | b :: row' =>
      match Color_from_byte b with
      | Ok c => match colors_of_bytes row' with
                | Ok cs => Ok (c :: cs)
                | Err e => Err e
                | Diverges => Diverges
                end
      | Err e => Err e
      | Diverges => Diverges
      end
  end.

Fixpoint read_rows (width : Z) (rows : nat) : reader (list Color) :=
  match rows with
  | O => ret []
  | S rows' =>
      row <- read_exact (Z.to_nat width) ;;
      colors <- (fun s => match colors_of_bytes row with
                          | Ok cs => Ok (cs, s)
                          | Err e => Err e
                          | Diverges => Diverges
                          end) ;;
      read_exactly [10] ;;;
      rest <- read_rows width rows' ;;
      ret (colors ++ rest)
  end.

(** Modelled from the spec: [Image::read] (absent from src/), as section 4.5
    states it: exactly [height] rows, each of exactly [width] pixel
    characters decoded by [Color::from_byte] and followed by a newline.
    The image has an empty tag and empty metadata. *)
Definition Image_read (width height : Z) : reader Image :=
  pixels <- read_rows width (Z.to_nat height) ;;
  ret (mkImage width height pixels [] []).

Fixpoint write_rows (width : nat) (rows : nat) (pixels : list Color) : list Z :=
  match rows with
  | O => []
  | S rows' =>
      map Color_to_byte (firstn width pixels) ++ [10]
        ++ write_rows width rows' (skipn width pixels)
  end.

(** Modelled from the spec: [Image::write] (absent from src/), as section 4.5
    states it: the mirror of [Image::read], row-major, top to bottom, left
    to right, each row followed by a newline. *)
Definition Image_write (img : Image) : list Z :=
  write_rows (Z.to_nat (width img)) (Z.to_nat (height img)) (pixels img).

(** ** collect.rs *)

Record Collection : Type := mkCollection {
  palettes : list Palette;
  images : list Image
}.

Definition FLAG_INDIVIDUAL_DIMENSIONS : Z := 1.
Definition FLAG_STRING_TAGS : Z := 2.
Definition FLAG_METADATA_INTS : Z := 4.

Definition is_empty {A} (l : list A) : bool :=
  match l with [] => true | _ => false end.

Definition isSome {A} (o : option A) : bool :=
  match o with Some _ => true | None => false end.

Definition flag_set (flags flag : Z) : bool := negb (Z.land flags flag =? 0).

Fixpoint read_palettes (n : nat) : reader (list Palette) :=
  match n with
  | O => ret []
  | S n' => p <- Palette_read ;; ps <- read_palettes n' ;; ret (p :: ps)
  end.

Definition read_tag (flags : Z) : reader (list Z) :=
  if flag_set flags FLAG_STRING_TAGS then
    t <- read_quoted_string ;; read_exactly [10] ;;; ret t
  else ret [].

Definition read_metadata (flags : Z) : reader (list Z) :=
  if flag_set flags FLAG_METADATA_INTS then
    md <- read_list_of_i16s ;; read_exactly [10] ;;; ret md
  else ret [].

Definition read_image_size (flags gw gh : Z) : reader (Z * Z) :=
  if flag_set flags FLAG_INDIVIDUAL_DIMENSIONS then
    read_exactly (bs "w") ;;;
    w <- read_header_uint 32 ;;
    read_exactly (bs "h") ;;;
    h <- read_header_uint 10 ;;
    ret (w, h)
  else ret (gw, gh).

Fixpoint read_images (n : nat) (flags gw gh : Z) : reader (list Image) :=
  match n with
  | O => ret []
  | S n' =>
      read_exactly [10] ;;;
      t <- read_tag flags ;;
      md <- read_metadata flags ;;
      wh <- read_image_size flags gw gh ;;
      image <- Image_read (fst wh) (snd wh) ;;
      rest <- read_images n' flags gw gh ;;
      ret (mkImage (width image) (height image) (pixels image) t md :: rest)
  end.

(** The header after the version: [(num_images, global_width, global_height)]. *)
Definition read_sizes (version flags : Z) : reader (Z * Z * Z) :=
  if version =? 0 then
    read_exactly (bs "w") ;;;
    w <- read_header_uint 32 ;;
    read_exactly (bs "h") ;;;
    h <- read_header_uint 32 ;;
    read_exactly (bs "n") ;;;
    n <- read_header_uint 10 ;;
    ret (n, w, h)
  else if flag_set flags FLAG_INDIVIDUAL_DIMENSIONS then
    read_exactly (bs "i") ;;;
    n <- read_header_uint 10 ;;
    ret (n, 0, 0)
  else
    read_exactly (bs "i") ;;;
    n <- read_header_uint 32 ;;
    read_exactly (bs "w") ;;;
    w <- read_header_uint 32 ;;
    read_exactly (bs "h") ;;;
    h <- read_header_uint 10 ;;
    ret (n, w, h).

Definition Collection_read : reader Collection :=
  read_exactly (bs "ahi") ;;;
  version <- read_header_uint 32 ;;
  if negb (version =? 0) && negb (version =? 1) then fail (UnsupportedVersion version)
  else
    flags <- (if version =? 1 then read_exactly (bs "f") ;;; read_hex_u32 32
              else ret 0) ;;
    num_palettes <- (if version =? 1 then read_exactly (bs "p") ;;; read_header_uint 32
                     else ret 0) ;;
    sizes <- read_sizes version flags ;;
    let '(num_images, gw, gh) := sizes in
    (if 0 <? num_palettes then read_exactly [10] else ret tt) ;;;
    ps <- read_palettes (Z.to_nat num_palettes) ;;
    ims <- read_images (Z.to_nat num_images) flags gw gh ;;
    ret (mkCollection ps ims).

(** The locals [global_size], [has_string_tags] and [has_metadata] of
    [Collection::write]. *)
Definition global_size (imgs : list Image) : option (Z * Z) :=
  match imgs with
  | [] => Some (0, 0)
  | i0 :: _ =>
      if forallb (fun i => (width i =? width i0) && (height i =? height i0)) imgs
      then Some (width i0, height i0) else None
  end.

Definition has_string_tags (imgs : list Image) : bool :=
  existsb (fun i => negb (is_empty (tag i))) imgs.

Definition has_metadata (imgs : list Image) : bool :=
  existsb (fun i => negb (is_empty (metadata i))) imgs.

Definition write_version (c : Collection) : Z :=
  if is_empty (palettes c) && isSome (global_size (images c))
     && negb (has_string_tags (images c)) && negb (has_metadata (images c))
  then 0 else 1.

Definition write_flags (c : Collection) : Z :=
  let flags := 0 in
  let flags := if isSome (global_size (images c)) then flags
               else Z.lor flags FLAG_INDIVIDUAL_DIMENSIONS in
  let flags := if has_string_tags (images c) then Z.lor flags FLAG_STRING_TAGS
               else flags in
  if has_metadata (images c) then Z.lor flags FLAG_METADATA_INTS else flags.

Definition write_header (c : Collection) : list Z :=
  if write_version c =? 0 then
    match global_size (images c) with
    | Some (w, h) =>
        bs "ahi0 w" ++ fmt_dec w ++ bs " h" ++ fmt_dec h ++ bs " n"
          ++ fmt_dec (Z.of_nat (List.length (images c))) ++ [10]
    | None => []   (* unreachable: version 0 needs a global size *)
    end
  else
    bs "ahi1 f" ++ fmt_X 0 (write_flags c)
      ++ bs " p" ++ fmt_dec (Z.of_nat (List.length (palettes c)))
      ++ bs " i" ++ fmt_dec (Z.of_nat (List.length (images c)))
      ++ match global_size (images c) with
         | Some (w, h) => bs " w" ++ fmt_dec w ++ bs " h" ++ fmt_dec h
         | None => []
         end
      ++ [10].

Fixpoint intercalate_comma (vs : list (list Z)) : list Z :=
  match vs with
  | [] => []
  | [v] => v
  | v :: vs' => v ++ bs ", " ++ intercalate_comma vs'
  end.

Definition write_image (tags md : bool) (gs : option (Z * Z)) (img : Image)
  : list Z :=
  [10]
    ++ (if tags then [34] ++ flat_map escape_default (tag img) ++ [34; 10] else [])
    ++ (if md then bs "[" ++ intercalate_comma (map fmt_i16 (metadata img)) ++ bs "]"
                   ++ [10] else [])
    ++ (if isSome gs then []
        else bs "w" ++ fmt_dec (width img) ++ bs " h" ++ fmt_dec (height img) ++ [10])
    ++ Image_write img.

Definition Collection_write (c : Collection) : list Z :=
  write_header c
    ++ (if is_empty (palettes c) then []
        else [10] ++ flat_map Palette_write (palettes c))
    ++ flat_map (write_image (has_string_tags (images c)) (has_metadata (images c))
                             (global_size (images c)))
                (images c).

(** [Palette::get]: [self.rgba[color as usize]]; [color as usize] is the
    enum's discriminant, [Color_index].  The array has 16 slots, so the
    default of [nth] is never used on a palette of 16 slots. *)
Definition Palette_get (p : Palette) (color : Color) : rgba :=
  nth (Z.to_nat (Color_index color)) (palette_rgba p) (0, 0, 0, 0).

(** [Palette::set]: [self.rgba[color as usize] = rgba]. *)
Definition Palette_set (p : Palette) (color : Color) (v : rgba) : Palette :=
  let i := Z.to_nat (Color_index color) in
  mkPalette (firstn i (palette_rgba p) ++ [v] ++ skipn (S i) (palette_rgba p)).

(** [DEFAULT_PALETTE]. *)
Definition DEFAULT_PALETTE : Palette :=
  mkPalette [(0, 0, 0, 0); (0, 0, 0, 255); (127, 0, 0, 255); (255, 0, 0, 255);
             (0, 127, 0, 255); (0, 255, 0, 255); (127, 127, 0, 255); (255, 255, 0, 255);
             (0, 0, 127, 255); (0, 0, 255, 255); (127, 0, 127, 255); (255, 0, 255, 255);
             (0, 127, 127, 255); (0, 255, 255, 255); (127, 127, 127, 255);
             (255, 255, 255, 255)].

(** ** image.rs: the [Image] type with [read_all], the transforms and
    indexing.  Its [u32] arithmetic wraps (a release build). *)

Module ImageRs.

Record Image : Type := mkImage {
  width : Z;              (* u32 *)
  height : Z;             (* u32 *)
  pixels : list Color     (* Box<[Color]> *)
}.

Definition u32 (z : Z) : Z := z mod 2 ^ 32.

(** [Image::new]: [(width * height) as usize] is a [u32] product. *)
Definition new (w h : Z) : Image :=
  mkImage w h (repeat Transparent (Z.to_nat (u32 (w * h)))).

(** [Index<(u32, u32)>]: [None] is the panic, either the explicit
    "index out of range" or the slice's own bounds check. *)
Definition index (img : Image) (col row : Z) : option Color :=
  if (width img <=? col) || (height img <=? row) then None
  else nth_error (pixels img) (Z.to_nat (u32 (u32 (row * width img) + col))).

(** [IndexMut<(u32, u32)>] followed by an assignment [img[(col, row)] = c]. *)
Definition index_set (img : Image) (col row : Z) (c : Color) : option Image :=
  if (width img <=? col) || (height img <=? row) then None
  else
    let off := Z.to_nat (u32 (u32 (row * width img) + col)) in
    if (off <? List.length (pixels img))%nat then
      Some (mkImage (width img) (height img)
                    (firstn off (pixels img) ++ [c] ++ skipn (S off) (pixels img)))
    else None.

(** [i32] wrap-around, for the [as i32] casts and [i32] sums of
    [fill_rect] and [draw] (a release build). *)
Definition i32 (z : Z) : Z := (z + 2 ^ 31) mod 2 ^ 32 - 2 ^ 31.

(** The values of a loop [for k in a..b] (empty when [b <= a]). *)
Definition range (a b : Z) : list Z :=
  map (fun k => a + Z.of_nat k) (seq 0 (Z.to_nat (b - a))).

(** Maps a fallible function over a list, stopping at the first [None]. *)
Fixpoint traverse {A B : Type} (f : A -> option B) (l : list A) : option (list B) :=
  match l with
  | [] => Some []
  | a :: l' =>
      match f a with
      | Some b => match traverse f l' with
                  | Some bs => Some (b :: bs)
                  | None => None
                  end
      | None => None
      end
  end.

(** The pixel vector built by [flip_horz], [flip_vert], [rotate_cw] and
    [rotate_ccw]: for [row in 0..rows], [col in 0..cols], push
    [self.pixels[index as usize]]; [None] is the slice's bounds panic. *)
Definition gather (img : Image) (rows cols : Z) (index_of : Z -> Z -> Z)
  : option (list Color) :=
  traverse (fun k => nth_error (pixels img) (Z.to_nat k))
           (flat_map (fun row => map (index_of row) (range 0 cols)) (range 0 rows)).

(** [Image::flip_horz]: [offset + self.width - col - 1] in [u32]. *)
Definition flip_horz (img : Image) : option Image :=
  let w := width img in
  match gather img (height img) w
          (fun row col => u32 (u32 (u32 (u32 (row * w) + w) - col) - 1)) with
  | Some px => Some (mkImage w (height img) px)
  | None => None
  end.

(** [Image::flip_vert]: [(self.height - row - 1) * self.width + col] in [u32]. *)
Definition flip_vert (img : Image) : option Image :=
  let w := width img in
  let h := height img in
  match gather img h w (fun row col => u32 (u32 (u32 (u32 (h - row) - 1) * w) + col)) with
  | Some px => Some (mkImage w h px)
  | None => None
  end.

(** [Image::rotate_cw]: rows over the old width, columns over the old
    height, [self.width * (self.height - col - 1) + row] in [u32]. *)
Definition rotate_cw (img : Image) : option Image :=
  let w := width img in
  let h := height img in
  match gather img w h (fun row col => u32 (u32 (w * u32 (u32 (h - col) - 1)) + row)) with
  | Some px => Some (mkImage h w px)
  | None => None
  end.

(** [Image::rotate_ccw]: [self.width * col + (self.width - row - 1)] in [u32]. *)
Definition rotate_ccw (img : Image) : option Image :=
  let w := width img in
  let h := height img in
  match gather img w h (fun row col => u32 (u32 (w * col) + u32 (u32 (w - row) - 1))) with
  | Some px => Some (mkImage h w px)
  | None => None
  end.

(** [Image::clear]. *)
Definition clear (img : Image) : Image :=
  mkImage (width img) (height img) (repeat Transparent (List.length (pixels img))).

(** [self[(col, row)] = color] inside a loop; a panic ([None]) stops it. *)
Definition set_pixel (o : option Image) (col row : Z) (c : Color) : option Image :=
  match o with
  | Some img => index_set img col row c
  | None => None
  end.

(** [Image::fill_rect] ([x], [y] are [i32]; [w], [h] are [u32]). *)
Definition fill_rect (img : Image) (x y w h : Z) (color : Color) : option Image :=
  let start_row := Z.min (Z.max 0 y) (height img) in
  let end_row := Z.min (Z.max 0 (i32 (y + i32 h))) (height img) in
  let start_col := Z.min (Z.max 0 x) (width img) in
  let end_col := Z.min (Z.max 0 (i32 (x + i32 w))) (width img) in
  fold_left (fun o row =>
               fold_left (fun o col => set_pixel o col row color)
                         (range start_col end_col) o)
            (range start_row end_row) (Some img).




(** [Image::rgba_data]. *)
Definition rgba_data (img : Image) (palette : Palette) : list Z :=
  flat_map (fun color => let '(r, g, b, a) := Palette_get palette color in [r; g; b; a])
           (pixels img).

(** [Image::read_all]: the rows of each image are read as [read_rows]
    reads them (a [width]-byte [read_exact], [Color::from_byte] on each
    byte, then a newline). *)
Fixpoint read_all_images (n : nat) (width height : Z) : reader (list Image) :=
  match n with
  | O => ret []
  | S n' =>
      read_exactly [10] ;;;
      pixels <- read_rows width (Z.to_nat height) ;;
      images <- read_all_images n' width height ;;
      ret (mkImage width height pixels :: images)
  end.

Definition read_all : reader (list Image) :=
  read_exactly (bs "ahi") ;;;
  version <- read_header_uint 32 ;;
  if negb (version =? 0) then fail (UnsupportedVersion version)
  else
    read_exactly (bs "w") ;;;
    width <- read_header_uint 32 ;;
    read_exactly (bs "h") ;;;
    height <- read_header_uint 32 ;;
    read_exactly (bs "n") ;;;
    num_images <- read_header_uint 10 ;;
    read_all_images (Z.to_nat num_images) width height.

(** The error of [Image::write_all]: "images must all have the same
    dimensions (found WxH instead of WxH)". *)
Inductive write_error : Type :=
| DimensionMismatch (found_width found_height width height : Z).

(** What [write_all] leaves in the writer, and how it returns. *)
Inductive write_result : Type :=
| Written (out : list Z)
| WriteFailed (out : list Z) (e : write_error)
| WritePanicked (out : list Z).

(** The rows of one image: [image.pixels[(row * width + col) as usize]]
    for [row in 0..height], [col in 0..width], each row then a newline. *)
Definition write_grid (img : Image) (w h : Z) : option (list Z) :=
  match traverse (fun row =>
                    match traverse (fun col => nth_error (pixels img)
                                                 (Z.to_nat (u32 (u32 (row * w) + col))))
                                   (range 0 w) with
                    | Some cs => Some (map Color_to_byte cs ++ [10])
                    | None => None
                    end)
                 (range 0 h) with
  | Some rows => Some (List.concat rows)
  | None => None
  end.

Fixpoint write_images (w h : Z) (images : list Image) (out : list Z) : write_result :=
  match images with
  | [] => Written out
  | image :: images' =>
      if negb (width image =? w) || negb (height image =? h) then
        WriteFailed out (DimensionMismatch (width image) (height image) w h)
      else
        match write_grid image w h with
        | Some g => write_images w h images' (out ++ [10] ++ g)
        | None => WritePanicked (out ++ [10])
        end
  end.

(** [Image::write_all]. *)
Definition write_all (images : list Image) : write_result :=
  let '(w, h) := match images with
                 | [] => (0, 0)
                 | i0 :: _ => (width i0, height i0)
                 end in
  write_images w h images
    (bs "ahi0 w" ++ fmt_dec w ++ bs " h" ++ fmt_dec h ++ bs " n"
       ++ fmt_dec (Z.of_nat (List.length images)) ++ [10]).

End ImageRs.

(** ** lib.rs: the older single-file version of the crate

    Its [Color] has the same variants as color.rs, and its [Image] the
    same fields as image.rs, so [Color] and [ImageRs.Image] serve for
    both. *)

Module Lib.

(** [Color::rgba]. *)
Definition Color_rgba (c : Color) : rgba :=
  match c with
  | Transparent => (0, 0, 0, 0)
  | Black => (0, 0, 0, 255)
  | DarkRed => (127, 0, 0, 255)
  | Red => (255, 0, 0, 255)
  | DarkGreen => (0, 127, 0, 255)
  | Green => (0, 255, 0, 255)
  | DarkYellow => (127, 127, 0, 255)
  | Yellow => (255, 255, 0, 255)
  | DarkBlue => (0, 0, 127, 255)
  | Blue => (0, 0, 255, 255)
  | DarkMagenta => (127, 0, 127, 255)
  | Magenta => (255, 0, 255, 255)
  | DarkCyan => (0, 127, 127, 255)
  | Cyan => (0, 255, 255, 255)
  | Gray => (127, 127, 127, 255)
  | White => (255, 255, 255, 255)
  end.

(** [Image::rgba_data] of lib.rs. *)
Definition rgba_data (img : ImageRs.Image) : list Z :=
  flat_map (fun pixel => let '(r, g, b, a) := Color_rgba pixel in [r; g; b; a])
           (ImageRs.pixels img).

(** The loop of lib.rs's [read_header_int]: no sign and no check that a
    digit was read; a byte that is not a digit is refused (its message,
    "invalid character in header field", is [InvalidDigit]'s).  The
    value stays at most 0xFFFF, so the [u32] arithmetic never wraps. *)
Fixpoint header_int_loop (terminator value : Z) (s : list Z) : res (Z * list Z) :=
  match s with
  | [] => Ok (value, [])
  | byte :: s' =>
      if byte =? terminator then Ok (value, s')
      else if (48 <=? byte) && (byte <=? 57) then
        let value' := value * 10 + (byte - 48) in
        if MAX_HEADER_VALUE <? value' then Err ValueTooLarge
        else header_int_loop terminator value' s'
      else Err (InvalidDigit byte)
  end.

Definition read_header_int (terminator : Z) : reader Z :=
  header_int_loop terminator 0.

(** [Image::read_all] of lib.rs: the code of image.rs's, with lib.rs's
    [read_header_int] for the header fields (its [read_exactly] is the
    same code as util.rs's, and its [Color::from_byte] the same table). *)
Definition read_all : reader (list ImageRs.Image) :=
  read_exactly (bs "ahi") ;;;
  version <- read_header_int 32 ;;
  if negb (version =? 0) then fail (UnsupportedVersion version)
  else
    read_exactly (bs "w") ;;;
    width <- read_header_int 32 ;;
    read_exactly (bs "h") ;;;
    height <- read_header_int 32 ;;
    read_exactly (bs "n") ;;;
    num_images <- read_header_int 10 ;;
    ImageRs.read_all_images (Z.to_nat num_images) width height.

(** [Image::write_all] of lib.rs is the same code as image.rs's. *)
Definition write_all : list ImageRs.Image -> ImageRs.write_result := ImageRs.write_all.

End Lib.

(** ** Vocabulary of the statements below

    Shapes of the input of [read_header_int]: an optional sign, then
    digits, each of them different from the terminator. *)

Definition sign_ok (terminator : Z) (sg : list Z) : Prop :=
  sg = [] \/ (sg = [45] /\ 45 <> terminator).

Definition digits_ok (terminator : Z) (ds : list Z) : Prop :=
  Forall (fun b => is_ascii_digit b = true /\ b <> terminator) ds.

(** The magnitude of a digit string, read on from [v]. *)
Definition dec_from (v : Z) (ds : list Z) : Z :=
  fold_left (fun v b => v * 10 + (b - 48)) ds v.

Definition dec_value (ds : list Z) : Z := dec_from 0 ds.

(** The value of a string of hex digit bytes. *)
Definition digit_of (b : Z) : Z :=
  match hex_digit_value b with Some d => d | None => 0 end.

Definition is_hex_byte (b : Z) : Prop := hex_digit_value b <> None.

(** The images' sizes, tags and metadata, as the spec speaks of them. *)
Definition same_size (imgs : list Image) : Prop :=
  forall i j, In i imgs -> In j imgs -> width i = width j /\ height i = height j.

Definition any_tag (imgs : list Image) : Prop := exists i, In i imgs /\ tag i <> [].

Definition any_metadata (imgs : list Image) : Prop :=
  exists i, In i imgs /\ metadata i <> [].

(** The 16 pixel characters. *)
Definition pixel_chars : list Z := bs "0123456789ABCDEF".

(** The loop cannot go on with the next byte. *)
Definition digits_stop (t v : Z) (rest : list Z) : Prop :=
  match rest with
  | [] => True
  | b :: _ => ~ (is_ascii_digit b = true /\ b <> t /\ v * 10 + (b - 48) <= 65535)
  end.

(** A value that [write!] of an [i16] can produce. *)
Definition is_i16 (v : Z) : Prop := -32768 <= v <= 32767.

(** A palette slot [write_slot] writes faithfully: bytes, and alpha zero only with zero color. *)
Definition slot_ok (v : rgba) : Prop :=
  let '(r, g, b, a) := v in
  0 <= r < 256 /\ 0 <= g < 256 /\ 0 <= b < 256 /\ 0 <= a < 256 /\
  (a <> 0 \/ v = (0, 0, 0, 0)).

(** A palette of 16 faithful slots. *)
Definition palette_ok (p : Palette) : Prop :=
  List.length (palette_rgba p) = 16%nat /\ Forall slot_ok (palette_rgba p).

(** An image that the header and grid formats can carry. *)
Definition image_ok (img : Image) : Prop :=
  0 <= width img <= 65535 /\ 0 <= height img <= 65535 /\
  List.length (pixels img) = (Z.to_nat (width img) * Z.to_nat (height img))%nat /\
  Forall (fun c => char_from_u32_ok c = true) (tag img) /\
  Forall is_i16 (metadata img).

(** A collection whose counts fit the header fields and whose parts are all well formed. *)
Definition collection_ok (c : Collection) : Prop :=
  Z.of_nat (List.length (palettes c)) <= 65535 /\ Z.of_nat (List.length (images c)) <= 65535 /\
  Forall palette_ok (palettes c) /\ Forall image_ok (images c).

(** An image as [Image::new] builds it and the methods keep it: its
    sizes and their product fit a [u32], and it has one pixel per
    position. *)
Definition wf_image (img : ImageRs.Image) : Prop :=
  0 <= ImageRs.width img < 2 ^ 32 /\ 0 <= ImageRs.height img < 2 ^ 32 /\
  ImageRs.width img * ImageRs.height img < 2 ^ 32 /\
  Z.of_nat (List.length (ImageRs.pixels img)) = ImageRs.width img * ImageRs.height img.

(** An image of width [w] and height [h] for which [wf_image] holds. *)
Definition sized (w h : Z) (i : ImageRs.Image) : Prop :=
  ImageRs.width i = w /\ ImageRs.height i = h /\ wf_image i.


(** ** Theorems *)

(** Case analysis on every [=?] and [<?] of a goal. *)
Ltac split_ifs :=
  repeat match goal with
         | |- context [?a =? ?b] => destruct (Z.eqb_spec a b)
         | |- context [?a <? ?b] => destruct (Z.ltb_spec a b)
         | |- context [?a <=? ?b] => destruct (Z.leb_spec a b)
         end.

(** Scratch checks *)
Example ex_coll :
  let input := bs "ahi0 w2 h2 n2" ++ [10;10] ++ bs "20" ++ [10] ++ bs "5D" ++ [10;10]
                 ++ bs "E0" ++ [10] ++ bs "0E" ++ [10] in
  match Collection_read input with
  | Ok (c, []) => Collection_write c = input
  | _ => False
  end.
Proof. vm_compute. reflexivity. Qed.
Example ex_coll2 :
  let c := mkCollection [mkPalette (repeat (255,0,0,1) 16)]
             [mkImage 1 2 [Red; Blue] [233; 10; 34] [-5; 32767];
              mkImage 0 3 [] [] []] in
  Collection_read (Collection_write c) = Ok (c, []).
Proof. vm_compute. reflexivity. Qed.

(** *** color.rs *)

Lemma Color_from_byte_ok_in (b : Z) (c : Color) :
  Color_from_byte b = Ok c -> In b pixel_chars /\ Color_to_byte c = b.
Proof.
  unfold Color_from_byte, pixel_chars; simpl.
  split_ifs; intro H; inversion H; subst; simpl; intuition.
Qed.

Lemma Color_from_byte_outside (b : Z) :
  ~ In b pixel_chars -> Color_from_byte b = Err (InvalidPixelCharacter b).
Proof.
  unfold Color_from_byte, pixel_chars; simpl; intro Hn.
  split_ifs; subst; try reflexivity; exfalso; apply Hn; intuition.
Qed.

(** C4: [Color::to_byte] and [Color::from_byte] are inverse bijections
    between the sixteen colors (whose indices are exactly 0..15) and the
    bytes '0'..'9', 'A'..'F'; every other byte, lower-case 'a'..'f'
    included, fails with the invalid-pixel-character error. *)
Theorem Color_byte_bijection :
  (forall n, 0 <= n <= 15 <-> exists c, Color_index c = n) /\
  (forall c1 c2, Color_index c1 = Color_index c2 -> c1 = c2) /\
  (forall c, Color_from_byte (Color_to_byte c) = Ok c) /\
  (forall b, In b pixel_chars ->
     exists c, Color_from_byte b = Ok c /\ Color_to_byte c = b) /\
  (forall b c, Color_from_byte b = Ok c -> Color_to_byte c = b) /\
  (forall b, ~ In b pixel_chars ->
     Color_from_byte b = Err (InvalidPixelCharacter b)) /\
  (forall b, In b (bs "abcdef") ->
     Color_from_byte b = Err (InvalidPixelCharacter b)).
Proof.
  split; [|split; [|split; [|split; [|split; [|split]]]]].
  - intro n; split.
    + intros Hn.
      assert (15 = n \/ 14 = n \/ 13 = n \/ 12 = n \/ 11 = n \/ 10 = n \/
              9 = n \/ 8 = n \/ 7 = n \/ 6 = n \/ 5 = n \/ 4 = n \/
              3 = n \/ 2 = n \/ 1 = n \/ 0 = n) as Hc by lia.
      repeat destruct Hc as [Hc|Hc]; subst;
        solve [ exists Transparent; reflexivity | exists Black; reflexivity
              | exists DarkRed; reflexivity | exists Red; reflexivity
              | exists DarkGreen; reflexivity | exists Green; reflexivity
              | exists DarkYellow; reflexivity | exists Yellow; reflexivity
              | exists DarkBlue; reflexivity | exists Blue; reflexivity
              | exists DarkMagenta; reflexivity | exists Magenta; reflexivity
              | exists DarkCyan; reflexivity | exists Cyan; reflexivity
              | exists Gray; reflexivity | exists White; reflexivity ].
    + intros [c Hc]; subst; destruct c; simpl; lia.
  - intros c1 c2; destruct c1, c2; simpl; intro H; (reflexivity || discriminate).
  - intro c; destruct c; reflexivity.
  - intros b Hb; unfold pixel_chars in Hb; simpl in Hb.
    repeat destruct Hb as [Hb|Hb]; subst;
      try (eexists; split; reflexivity); contradiction.
  - intros b c H; apply (Color_from_byte_ok_in b c H).
  - exact Color_from_byte_outside.
  - intros b Hb; apply Color_from_byte_outside.
    unfold pixel_chars; simpl in *; intro Hin.
    repeat destruct Hb as [Hb|Hb]; subst; try contradiction;
      repeat destruct Hin as [Hin|Hin]; try discriminate; contradiction.
Qed.

(** *** image.rs *)

(** C9 (code defect): [Image::new] computes the pixel count as a [u32]
    product, which wraps: [Image::new(65536, 65536)] has no pixel at all
    while [width * height = 2^32]. *)
Theorem Image_new_pixel_count_wraps :
  let img := ImageRs.new 65536 65536 in
  List.length (ImageRs.pixels img) = 0%nat /\
  ImageRs.width img * ImageRs.height img = 2 ^ 32.
Proof. vm_compute. split; reflexivity. Qed.

(** C10 (code defect): indexing computes [row * width + col] in [u32].
    On [Image::new(65536, 65537)] (whose pixel buffer holds 65536
    pixels after the wrap of [Image::new]), the in-range pixel
    [(0, 65536)] is read from offset [2^32 mod 2^32 = 0]: after
    [img[(0, 0)] = Red], [img[(0, 65536)]] reads [Red] too, although its
    offset [65536 * 65536 + 0] lies past the end of the buffer. *)
Theorem Image_index_aliases_row :
  let img := ImageRs.new 65536 65537 in
  ImageRs.index img 0 65536 = ImageRs.index img 0 0 /\
  match ImageRs.index_set img 0 0 Red with
  | Some img' =>
      ImageRs.index img' 0 65536 = Some Red /\
      Z.of_nat (List.length (ImageRs.pixels img')) = 65536 /\
      Z.of_nat (List.length (ImageRs.pixels img')) <= 65536 * 65536 + 0
  | None => False
  end.
Proof.
  vm_compute. repeat split; try reflexivity; discriminate.
Qed.

(** *** util.rs: [read_header_int] *)

Lemma digits_ok_cons (t b : Z) (ds : list Z) :
  digits_ok t (b :: ds) <-> (is_ascii_digit b = true /\ b <> t) /\ digits_ok t ds.
Proof. unfold digits_ok; split; intro H; [inversion H; auto | constructor; tauto]. Qed.

Lemma digits_ok_app (t : Z) (ds1 ds2 : list Z) :
  digits_ok t (ds1 ++ ds2) <-> digits_ok t ds1 /\ digits_ok t ds2.
Proof. unfold digits_ok; rewrite Forall_app; tauto. Qed.

Lemma is_ascii_digit_range (b : Z) : is_ascii_digit b = true <-> 48 <= b <= 57.
Proof. unfold is_ascii_digit; rewrite andb_true_iff, !Z.leb_le; tauto. Qed.

Lemma dec_from_mono (t : Z) (ds : list Z) (v : Z) :
  digits_ok t ds -> 0 <= v -> v <= dec_from v ds.
Proof.
  revert v; induction ds as [|b ds IH]; intros v Hds Hv; simpl; [lia|].
  apply digits_ok_cons in Hds as [[Hb _] Hds]; apply is_ascii_digit_range in Hb.
  specialize (IH (v * 10 + (b - 48)) Hds ltac:(lia)); unfold dec_from in *; lia.
Qed.

Lemma dec_from_app (v : Z) (ds1 ds2 : list Z) :
  dec_from v (ds1 ++ ds2) = dec_from (dec_from v ds1) ds2.
Proof. unfold dec_from; apply fold_left_app. Qed.

Lemma header_int_loop_digits (t : Z) (ds rest : list Z) :
  forall negative any_digits v, digits_ok t ds -> 0 <= v -> dec_from v ds <= 65535 ->
  header_int_loop t negative any_digits v (ds ++ rest) =
  header_int_loop t negative (any_digits || negb (is_empty ds)) (dec_from v ds) rest.
Proof.
  induction ds as [|b ds IH]; intros negative any_digits v Hds Hv Hle; simpl.
  - rewrite orb_false_r; reflexivity.
  - apply digits_ok_cons in Hds as [[Hb Hbt] Hds].
    apply is_ascii_digit_range in Hb.
    pose proof (dec_from_mono t ds (v * 10 + (b - 48)) Hds ltac:(lia)) as Hm.
    simpl in Hle.
    destruct (Z.eqb_spec b t); [contradiction|].
    destruct (Z.eqb_spec b 45); [lia|].
    destruct (Z.ltb_spec b 48); [lia|]; destruct (Z.ltb_spec 57 b); [lia|]; simpl.
    unfold MAX_HEADER_VALUE; destruct (Z.ltb_spec 65535 (v * 10 + (b - 48))).
    + unfold dec_from in *; lia.
    + rewrite (IH negative true); [|exact Hds|lia|exact Hle].
      rewrite orb_true_r; reflexivity.
Qed.

Lemma header_int_loop_cons (t : Z) (negative any_digits : bool) (v b : Z) (s : list Z) :
  header_int_loop t negative any_digits v (b :: s) =
  if b =? t then
    if negb any_digits then Err MissingDigits
    else Ok (if negative then - v else v, s)
  else if b =? 45 then
    if negative || any_digits then Err MisplacedSign
    else header_int_loop t true any_digits v s
  else if (b <? 48) || (57 <? b) then Err (InvalidDigit b)
  else if MAX_HEADER_VALUE <? v * 10 + (b - 48) then Err ValueTooLarge
  else header_int_loop t negative true (v * 10 + (b - 48)) s.
Proof. reflexivity. Qed.

Lemma read_header_int_prefix (t : Z) (sg ds rest : list Z) :
  sign_ok t sg -> digits_ok t ds -> dec_value ds <= 65535 ->
  read_header_int t (sg ++ ds ++ rest) =
  header_int_loop t (negb (is_empty sg)) (negb (is_empty ds)) (dec_value ds) rest.
Proof.
  intros Hsg Hds Hle; unfold read_header_int, dec_value.
  destruct Hsg as [->|[-> Ht]]; cbn [app].
  - apply header_int_loop_digits; auto; lia.
  - rewrite header_int_loop_cons.
    destruct (Z.eqb_spec 45 t); [congruence|]; simpl.
    apply header_int_loop_digits; auto; lia.
Qed.

Lemma munch_digits (t : Z) (s : list Z) :
  forall v, 0 <= v <= 65535 ->
  exists ds rest, digits_ok t ds /\ dec_from v ds <= 65535 /\ s = ds ++ rest /\
                  digits_stop t (dec_from v ds) rest.
Proof.
  induction s as [|b s IH]; intros v Hv.
  - exists [], []; repeat split; simpl; auto; [constructor | lia].
  - destruct (is_ascii_digit b) eqn:Hb;
      [destruct (Z.eqb_spec b t); [|destruct (Z.leb_spec (v * 10 + (b - 48)) 65535)]|].
    + exists [], (b :: s); repeat split; simpl; auto; [constructor|lia|tauto].
    + apply is_ascii_digit_range in Hb.
      destruct (IH (v * 10 + (b - 48)) ltac:(lia)) as (ds & rest & H1 & H2 & H3 & H4).
      exists (b :: ds), rest; repeat split; simpl; auto.
      * apply digits_ok_cons; split; [split; [apply is_ascii_digit_range; lia|auto]|auto].
      * subst; reflexivity.
    + exists [], (b :: s); repeat split; simpl; auto; [constructor|lia|lia].
    + exists [], (b :: s); repeat split; simpl; auto; [constructor|lia|].
      intros [H _]; congruence.
Qed.

Lemma header_canonical (t : Z) (s : list Z) :
  exists sg ds rest,
    sign_ok t sg /\ digits_ok t ds /\ dec_value ds <= 65535 /\ s = sg ++ ds ++ rest /\
    digits_stop t (dec_value ds) rest /\
    (sg = [] -> ds = [] -> forall post, rest = 45 :: post -> 45 = t).
Proof.
  assert (Hfirst : forall sg s0, sign_ok t sg ->
            (sg = [] -> forall post, s0 = 45 :: post -> 45 = t) ->
            exists ds rest,
              sign_ok t sg /\ digits_ok t ds /\ dec_value ds <= 65535 /\
              sg ++ s0 = sg ++ ds ++ rest /\ digits_stop t (dec_value ds) rest /\
              (sg = [] -> ds = [] -> forall post, rest = 45 :: post -> 45 = t)).
  { intros sg s0 Hsg Hs0.
    destruct (munch_digits t s0 0 ltac:(lia)) as (ds & rest & H1 & H2 & H3 & H4).
    exists ds, rest; repeat split; auto.
    - subst; reflexivity.
    - intros -> -> post Hr; subst s0; simpl in Hs0; eapply Hs0; eauto. }
  destruct s as [|b s'].
  - destruct (Hfirst [] [] (or_introl eq_refl)) as (ds & rest & H); [discriminate|].
    exists [], ds, rest; exact H.
  - destruct (Z.eqb_spec b 45) as [->|Hb];
      [destruct (Z.eqb_spec 45 t) as [Ht|Ht]|].
    + destruct (Hfirst [] (45 :: s') (or_introl eq_refl)) as (ds & rest & H); [auto|].
      exists [], ds, rest; exact H.
    + destruct (Hfirst [45] s' (or_intror (conj eq_refl Ht))) as (ds & rest & H);
        [discriminate|].
      exists [45], ds, rest; exact H.
    + destruct (Hfirst [] (b :: s') (or_introl eq_refl)) as (ds & rest & H);
        [intros _ post Hp; inversion Hp; contradiction|].
      exists [], ds, rest; exact H.
Qed.

Lemma header_int_outcome (t : Z) (s : list Z) :
  exists sg ds,
    sign_ok t sg /\ digits_ok t ds /\ dec_value ds <= 65535 /\
    ((s = sg ++ ds /\
      read_header_int t s = Ok (if is_empty sg then dec_value ds else - dec_value ds, []))
     \/ (exists post, s = sg ++ ds ++ t :: post /\
          ((ds = [] /\ read_header_int t s = Err MissingDigits) \/
           (ds <> [] /\ read_header_int t s =
                        Ok (if is_empty sg then dec_value ds else - dec_value ds, post))))
     \/ (exists post, s = sg ++ ds ++ 45 :: post /\ 45 <> t /\ (sg <> [] \/ ds <> []) /\
          read_header_int t s = Err MisplacedSign)
     \/ (exists b post, s = sg ++ ds ++ b :: post /\ b <> t /\ b <> 45 /\
          is_ascii_digit b = false /\ read_header_int t s = Err (InvalidDigit b))
     \/ (exists d post, s = sg ++ ds ++ d :: post /\ is_ascii_digit d = true /\ d <> t /\
          65535 < dec_value ds * 10 + (d - 48) /\ read_header_int t s = Err ValueTooLarge)).
Proof.
  destruct (header_canonical t s) as (sg & ds & rest & Hsg & Hds & Hle & Hs & Hstop & Hneg).
  exists sg, ds; repeat split; auto.
  pose proof (read_header_int_prefix t sg ds rest Hsg Hds Hle) as Hr.
  rewrite <- Hs in Hr.
  destruct rest as [|b post].
  - left; split; [rewrite Hs, app_nil_r; reflexivity|].
    rewrite Hr; simpl; destruct sg; reflexivity.
  - right. rewrite header_int_loop_cons in Hr.
    destruct (Z.eqb_spec b t) as [->|Hbt].
    + left; exists post; split; [exact Hs|].
      destruct ds as [|d ds']; [left|right]; split; try discriminate; auto.
      rewrite Hr; simpl; destruct sg; reflexivity.
    + right. destruct (Z.eqb_spec b 45) as [->|Hb45].
      * left; exists post; repeat split; auto.
        -- destruct sg, ds; try (right; discriminate); try (left; discriminate).
           exfalso; apply Hbt; apply (Hneg eq_refl eq_refl post eq_refl).
        -- rewrite Hr; destruct sg, ds; simpl; try reflexivity.
           exfalso; apply Hbt; apply (Hneg eq_refl eq_refl post eq_refl).
      * right. destruct (is_ascii_digit b) eqn:Hd.
        -- right; exists b, post; pose proof Hd as Hd'.
           apply is_ascii_digit_range in Hd'.
           simpl in Hstop.
           assert (65535 < dec_value ds * 10 + (b - 48)) as Hov
             by (destruct (Z.leb_spec (dec_value ds * 10 + (b - 48)) 65535);
                 [exfalso; apply Hstop; auto|lia]).
           repeat split; auto.
           rewrite Hr; unfold MAX_HEADER_VALUE.
           destruct (Z.ltb_spec b 48); [lia|]; destruct (Z.ltb_spec 57 b); [lia|].
           destruct (Z.ltb_spec 65535 (dec_value ds * 10 + (b - 48))); [reflexivity|lia].
        -- left; exists b, post; repeat split; auto.
           rewrite Hr.
           assert (~ (48 <= b <= 57)) as Hnd
             by (intro H; apply is_ascii_digit_range in H; congruence).
           destruct (Z.ltb_spec b 48); [reflexivity|]; destruct (Z.ltb_spec 57 b);
             [reflexivity|lia].
Qed.

(** C5: [read_header_int] (the spec's [read_decimal_int]) scans an optional
    '-', digits and the terminator, and fails at the first byte that does
    not fit, with the error of that byte: the missing-digits error when the
    terminator comes before any digit, the misplaced-sign error for a '-'
    after a digit or after a first '-', the invalid-digit error for any
    other byte that is neither a digit nor the terminator, and the
    value-too-large error when a digit takes the magnitude past 0xFFFF.
    These are its only errors, and every magnitude up to 65535 followed by
    the terminator is accepted, negated after a leading '-'. *)
Theorem read_header_int_spec (t : Z) (s : list Z) :
  (read_header_int t s = Err MissingDigits <->
     exists sg post, sign_ok t sg /\ s = sg ++ t :: post) /\
  (read_header_int t s = Err MisplacedSign <->
     exists sg ds post, sign_ok t sg /\ digits_ok t ds /\ dec_value ds <= 65535 /\
       (sg <> [] \/ ds <> []) /\ 45 <> t /\ s = sg ++ ds ++ 45 :: post) /\
  (forall b, read_header_int t s = Err (InvalidDigit b) <->
     exists sg ds post, sign_ok t sg /\ digits_ok t ds /\ dec_value ds <= 65535 /\
       b <> t /\ b <> 45 /\ is_ascii_digit b = false /\ s = sg ++ ds ++ b :: post) /\
  (read_header_int t s = Err ValueTooLarge <->
     exists sg ds d post, sign_ok t sg /\ digits_ok t (ds ++ [d]) /\
       dec_value ds <= 65535 /\ 65535 < dec_value (ds ++ [d]) /\
       s = sg ++ ds ++ d :: post) /\
  (forall e, read_header_int t s = Err e ->
     e = MissingDigits \/ e = MisplacedSign \/ (exists b, e = InvalidDigit b) \/
     e = ValueTooLarge) /\
  (forall sg ds post, sign_ok t sg -> digits_ok t ds -> ds <> [] ->
     dec_value ds <= 65535 -> s = sg ++ ds ++ t :: post ->
     read_header_int t s = Ok (if is_empty sg then dec_value ds else - dec_value ds, post)).
Proof.
  destruct (header_int_outcome t s) as (sg & ds & Hsg & Hds & Hle & Hout).
  split; [|split; [|split; [|split; [|split]]]].
  - split.
    + intro H.
      destruct Hout as [[_ Hr]|[(post & Hs & [[-> Hr]|[_ Hr]])|
                       [(post & _ & _ & _ & Hr)|[(b & post & _ & _ & _ & _ & Hr)|
                       (d & post & _ & _ & _ & _ & Hr)]]]];
        rewrite H in Hr; try discriminate.
      exists sg, post; split; auto.
    + intros (sg' & post & Hsg' & ->).
      assert (digits_ok t []) as Hnil by apply Forall_nil.
      rewrite <- (app_nil_l (t :: post)), (read_header_int_prefix t sg' [] _ Hsg' Hnil);
        [|unfold dec_value; simpl; lia].
      rewrite header_int_loop_cons, Z.eqb_refl; reflexivity.
  - split.
    + intro H.
      destruct Hout as [[_ Hr]|[(post & Hs & [[_ Hr]|[_ Hr]])|
                       [(post & Hs & H45 & Hne & Hr)|[(b & post & _ & _ & _ & _ & Hr)|
                       (d & post & _ & _ & _ & _ & Hr)]]]];
        rewrite H in Hr; try discriminate.
      exists sg, ds, post; repeat split; auto.
    + intros (sg' & ds' & post & Hsg' & Hds' & Hle' & Hne & H45 & ->).
      rewrite (read_header_int_prefix t sg' ds' _ Hsg' Hds' Hle').
      rewrite header_int_loop_cons.
      destruct (Z.eqb_spec 45 t); [congruence|]; simpl.
      destruct sg', ds'; simpl; try reflexivity. destruct Hne; congruence.
  - intro b; split.
    + intro H.
      destruct Hout as [[_ Hr]|[(post & Hs & [[_ Hr]|[_ Hr]])|
                       [(post & _ & _ & _ & Hr)|[(b' & post & Hs & Hbt & Hb45 & Hd & Hr)|
                       (d & post & _ & _ & _ & _ & Hr)]]]];
        rewrite H in Hr; try discriminate.
      inversion Hr; subst b'.
      exists sg, ds, post; repeat split; auto.
    + intros (sg' & ds' & post & Hsg' & Hds' & Hle' & Hbt & Hb45 & Hd & ->).
      rewrite (read_header_int_prefix t sg' ds' _ Hsg' Hds' Hle').
      rewrite header_int_loop_cons.
      destruct (Z.eqb_spec b t); [congruence|]; destruct (Z.eqb_spec b 45); [congruence|].
      assert (~ (48 <= b <= 57)) as Hnd
        by (intro H; apply is_ascii_digit_range in H; congruence).
      destruct (Z.ltb_spec b 48); [reflexivity|]; destruct (Z.ltb_spec 57 b);
        [reflexivity|lia].
  - split.
    + intro H.
      destruct Hout as [[_ Hr]|[(post & Hs & [[_ Hr]|[_ Hr]])|
                       [(post & _ & _ & _ & Hr)|[(b & post & _ & _ & _ & _ & Hr)|
                       (d & post & Hs & Hd & Hdt & Hov & Hr)]]]];
        rewrite H in Hr; try discriminate.
      exists sg, ds, d, post; repeat split; auto.
      * apply digits_ok_app; split; auto; constructor; auto.
      * unfold dec_value; rewrite dec_from_app; simpl; exact Hov.
    + intros (sg' & ds' & d & post & Hsg' & Hds' & Hle' & Hov & ->).
      apply digits_ok_app in Hds' as [Hds' Hd]; inversion Hd as [|? ? [Hd1 Hdt] _]; subst.
      rewrite (read_header_int_prefix t sg' ds' _ Hsg' Hds' Hle').
      rewrite header_int_loop_cons.
      apply is_ascii_digit_range in Hd1.
      unfold dec_value in Hov; rewrite dec_from_app in Hov; simpl in Hov.
      destruct (Z.eqb_spec d t); [congruence|]; destruct (Z.eqb_spec d 45); [lia|].
      destruct (Z.ltb_spec d 48); [lia|]; destruct (Z.ltb_spec 57 d); [lia|].
      unfold MAX_HEADER_VALUE, dec_value.
      destruct (Z.ltb_spec 65535 (dec_from 0 ds' * 10 + (d - 48))); [reflexivity|lia].
  - intros e H.
    destruct Hout as [[_ Hr]|[(post & Hs & [[_ Hr]|[_ Hr]])|
                     [(post & _ & _ & _ & Hr)|[(b & post & _ & _ & _ & _ & Hr)|
                     (d & post & _ & _ & _ & _ & Hr)]]]];
      rewrite H in Hr; inversion Hr; subst; eauto.
  - intros sg' ds' post Hsg' Hds' Hne Hle' ->.
    rewrite (read_header_int_prefix t sg' ds' _ Hsg' Hds' Hle').
    rewrite header_int_loop_cons, Z.eqb_refl.
    destruct ds'; [congruence|]; destruct sg'; reflexivity.
Qed.

(** *** util.rs: [read_header_uint] *)

Lemma read_header_uint_unfold (t : Z) (s : list Z) :
  read_header_uint t s =
  match read_header_int t s with
  | Ok (v, r) => if v <? 0 then Err (NegativeNotAllowed v) else Ok (v, r)
  | Err e => Err e
  | Diverges => Diverges
  end.
Proof.
  unfold read_header_uint, bind; destruct (read_header_int t s) as [[v r]| |]; auto.
  destruct (v <? 0); reflexivity.
Qed.

(** C6, as written, fails: "-0" followed by the terminator is read by
    [read_header_uint] as 0, although it carries a minus sign. *)
Lemma read_header_uint_minus_zero :
  read_header_uint 32 (bs "-0 ") = Ok (0, []) /\
  read_header_uint 32 (bs "-0 ") <> Err (NegativeNotAllowed 0).
Proof. split; [reflexivity | discriminate]. Qed.

(** C6, amended: [read_header_uint] returns what [read_header_int]
    returns, except that a negative value becomes the
    negative-not-allowed error.  So a signed input fails with that error
    exactly when its magnitude is nonzero, while a '-' followed by digits
    of value 0 (such as "-0") is accepted as 0; an unsigned input gives
    the same value as [read_header_int]. *)
Theorem read_header_uint_spec :
  (forall t s v r, read_header_uint t s = Ok (v, r) <->
                   read_header_int t s = Ok (v, r) /\ 0 <= v) /\
  (forall t s v, read_header_uint t s = Err (NegativeNotAllowed v) <->
                 exists r, read_header_int t s = Ok (v, r) /\ v < 0) /\
  (forall t s e, (forall v, e <> NegativeNotAllowed v) ->
                 (read_header_uint t s = Err e <-> read_header_int t s = Err e)) /\
  (forall t ds post, 45 <> t -> digits_ok t ds -> ds <> [] -> dec_value ds <= 65535 ->
     read_header_uint t ([45] ++ ds ++ t :: post) =
     if dec_value ds =? 0 then Ok (0, post)
     else Err (NegativeNotAllowed (- dec_value ds))) /\
  (forall t ds post, digits_ok t ds -> ds <> [] -> dec_value ds <= 65535 ->
     read_header_uint t (ds ++ t :: post) = Ok (dec_value ds, post)).
Proof.
  split; [|split; [|split; [|split]]].
  - intros t s v r; rewrite read_header_uint_unfold.
    destruct (read_header_int t s) as [[v' r']|e|]; split; intro H;
      try discriminate; try (destruct H; discriminate).
    + destruct (Z.ltb_spec v' 0); inversion H; subst; split; auto; lia.
    + destruct H as [H Hv]; inversion H; subst.
      destruct (Z.ltb_spec v 0); [lia|reflexivity].
  - intros t s v; rewrite read_header_uint_unfold.
    destruct (read_header_int t s) as [[v' r']|e|] eqn:E.
    + split; intro H.
      * destruct (Z.ltb_spec v' 0); inversion H; subst; eauto.
      * destruct H as [r [H Hv]]; inversion H; subst.
        destruct (Z.ltb_spec v 0); [reflexivity|lia].
    + split; intro H.
      * inversion H; subst.
        destruct (read_header_int_spec t s) as (_ & _ & _ & _ & Hk & _).
        destruct (Hk _ E) as [Hk'|[Hk'|[[b Hk']|Hk']]]; discriminate.
      * destruct H as [r [H _]]; discriminate.
    + split; intro H; [discriminate|destruct H as [r [H _]]; discriminate].
  - intros t s e He; rewrite read_header_uint_unfold.
    destruct (read_header_int t s) as [[v' r']|e'|]; split; intro H; auto;
      try discriminate.
    destruct (Z.ltb_spec v' 0); inversion H; subst; exfalso; eapply He; eauto.
  - intros t ds post H45 Hds Hne Hle.
    pose proof (dec_from_mono t ds 0 Hds ltac:(lia)) as Hm.
    destruct (read_header_int_spec t ([45] ++ ds ++ t :: post)) as (_ & _ & _ & _ & _ & Hok).
    rewrite read_header_uint_unfold,
      (Hok [45] ds post (or_intror (conj eq_refl H45)) Hds Hne Hle eq_refl).
    unfold dec_value in *; simpl.
    destruct (Z.eqb_spec (dec_from 0 ds) 0) as [E|E].
    + rewrite E; reflexivity.
    + destruct (Z.ltb_spec (- dec_from 0 ds) 0); [reflexivity|lia].
  - intros t ds post Hds Hne Hle.
    pose proof (dec_from_mono t ds 0 Hds ltac:(lia)) as Hm.
    destruct (read_header_int_spec t ([] ++ ds ++ t :: post)) as (_ & _ & _ & _ & _ & Hok).
    rewrite read_header_uint_unfold.
    change (ds ++ t :: post) with ([] ++ ds ++ t :: post).
    rewrite (Hok [] ds post (or_introl eq_refl) Hds Hne Hle eq_refl); simpl.
    unfold dec_value in *; destruct (Z.ltb_spec (dec_from 0 ds) 0); [lia|reflexivity].
Qed.

(** *** util.rs: [read_list_of_i16s] *)

Lemma list_loop_at_eof (fuel : nat) (values : list Z) :
  list_loop fuel values [] = Diverges.
Proof.
  revert values; induction fuel as [|fuel IH]; intro values; [reflexivity|].
  simpl; unfold bind; destruct values; apply IH.
Qed.

(** C7 (code defect): "[-]" is accepted as the empty list although the
    minus sign has no digits after it (the missing-integer check at ']'
    only looks at [values.is_empty()], not at the sign), and an input
    that ends inside the brackets, such as "[" or "[1, ", never returns:
    the [while !done] loop then repeats an iteration that reads nothing. *)
Theorem read_list_of_i16s_sign_only :
  read_list_of_i16s (bs "[-]") = Ok ([], []) /\
  read_list_of_i16s (bs "[-]x") = Ok ([], bs "x") /\
  read_list_of_i16s (bs "[") = Diverges /\
  read_list_of_i16s (bs "[1, ") = Diverges /\
  (forall fuel values, list_loop fuel values [] = Diverges).
Proof.
  split; [reflexivity|split; [reflexivity|split; [reflexivity|split; [reflexivity|]]]].
  exact list_loop_at_eof.
Qed.

(** *** util.rs: escapes, quoted strings and chars *)

Lemma hex_byte_not (b : Z) : is_hex_byte b -> b <> 125 /\ b <> 32 /\ b <> 10 /\ b <> 59.
Proof.
  unfold is_hex_byte, hex_digit_value; intro H.
  repeat split; intro E; subst; simpl in H; congruence.
Qed.

Lemma read_hex_digits_app (t : Z) (ds rest : list Z) :
  Forall (fun b => is_hex_byte b /\ b <> t) ds ->
  read_hex_digits t (ds ++ t :: rest) = Ok (map digit_of ds, rest).
Proof.
  induction ds as [|b ds IH]; intro H; simpl.
  - rewrite Z.eqb_refl; reflexivity.
  - inversion H as [|? ? [Hb Hbt] Hds]; subst.
    destruct (Z.eqb_spec b t); [contradiction|].
    unfold digit_of at 1; destruct (hex_digit_value b) eqn:E; [|exfalso; apply Hb, E].
    rewrite IH; auto.
Qed.

Lemma read_hex_u32_app (t : Z) (ds rest : list Z) :
  (1 <= List.length ds <= 8)%nat -> Forall (fun b => is_hex_byte b /\ b <> t) ds ->
  read_hex_u32 t (ds ++ t :: rest) = Ok (hex_value (map digit_of ds), rest).
Proof.
  intros Hlen Hds; unfold read_hex_u32, bind; rewrite read_hex_digits_app by exact Hds.
  destruct ds as [|b ds']; [simpl in Hlen; lia|].
  cbn [map List.length]; rewrite length_map.
  simpl in Hlen.
  destruct (Z.ltb_spec 8 (Z.of_nat (S (List.length ds')))); [lia|reflexivity].
Qed.

Lemma read_byte_cons (b : Z) (s : list Z) : read_byte (b :: s) = Ok (b, s).
Proof. reflexivity. Qed.

Lemma quoted_string_one (e rest : list Z) (c : Z) :
  read_char_escape 34 (e ++ 34 :: rest) = Ok (Some c, 34 :: rest) ->
  read_quoted_string (34 :: e ++ 34 :: rest) = Ok ([c], rest).
Proof.
  intro H; unfold read_quoted_string, bind; simpl.
  rewrite length_app; simpl.
  rewrite Nat.add_succ_r; simpl; unfold bind; rewrite H; reflexivity.
Qed.

Lemma quoted_char_one (e rest : list Z) (c : Z) :
  read_char_escape 39 (e ++ 39 :: rest) = Ok (Some c, 39 :: rest) ->
  read_quoted_char (39 :: e ++ 39 :: rest) = Ok (c, rest).
Proof. intro H; unfold read_quoted_char, bind; simpl; rewrite H; reflexivity. Qed.

(** C8: inside a quoted string or char ([quote] is '"' or '\''), the
    escapes \\, \', \", \n, \r, \t decode to backslash, single quote,
    double quote, newline, carriage return and tab; \u{...} with one to
    eight hex digits and a closing brace decodes to the character with that
    scalar value when it is a Unicode scalar value and fails with the
    invalid-unicode-scalar error otherwise (exactly the surrogates
    0xD800..0xDFFF and the values above 0x10FFFF); an unescaped byte below
    0x20 or above 0x7E fails with the invalid-char-literal-byte error. *)
Theorem read_char_escape_spec (quote : Z) :
  quote = 34 \/ quote = 39 ->
  (forall rest,
     read_char_escape quote (92 :: 92 :: rest) = Ok (Some 92, rest) /\
     read_char_escape quote (92 :: 39 :: rest) = Ok (Some 39, rest) /\
     read_char_escape quote (92 :: 34 :: rest) = Ok (Some 34, rest) /\
     read_char_escape quote (92 :: 110 :: rest) = Ok (Some 10, rest) /\
     read_char_escape quote (92 :: 114 :: rest) = Ok (Some 13, rest) /\
     read_char_escape quote (92 :: 116 :: rest) = Ok (Some 9, rest)) /\
  (forall ds rest,
     (1 <= List.length ds <= 8)%nat -> Forall is_hex_byte ds ->
     read_char_escape quote ([92; 117; 123] ++ ds ++ 125 :: rest) =
     let v := hex_value (map digit_of ds) in
     if char_from_u32_ok v then Ok (Some v, rest) else Err (InvalidUnicodeScalar v)) /\
  (forall v, 0 <= v ->
     (char_from_u32_ok v = false <-> 55296 <= v <= 57343 \/ 1114111 < v)) /\
  (forall b rest, b < 32 \/ 126 < b ->
     read_char_escape quote (b :: rest) = Err (InvalidCharLiteralByte b)) /\
  (forall e c rest, quote = 34 ->
     read_char_escape quote (e ++ quote :: rest) = Ok (Some c, quote :: rest) ->
     read_quoted_string (quote :: e ++ quote :: rest) = Ok ([c], rest)) /\
  (forall e c rest, quote = 39 ->
     read_char_escape quote (e ++ quote :: rest) = Ok (Some c, quote :: rest) ->
     read_quoted_char (quote :: e ++ quote :: rest) = Ok (c, rest)).
Proof.
  intro Hq.
  split; [|split; [|split; [|split; [|split]]]].
  - intro rest; destruct Hq as [->| ->]; repeat split; reflexivity.
  - intros ds rest Hlen Hds.
    assert (Hds' : Forall (fun b => is_hex_byte b /\ b <> 125) ds).
    { eapply Forall_impl; [|exact Hds]; intros b Hb; split; auto; apply hex_byte_not, Hb. }
    unfold read_char_escape; change (bs "{") with [123].
    destruct Hq as [->| ->]; cbn; unfold bind; cbn;
    rewrite (read_hex_u32_app 125 ds rest Hlen Hds'); cbn;
    destruct (char_from_u32_ok (hex_value (map digit_of ds))); reflexivity.
  - intros v Hv; unfold char_from_u32_ok.
    split; intro H.
    + apply orb_false_iff in H as [H1 H2].
      apply andb_false_iff in H1; apply andb_false_iff in H2.
      destruct H1 as [H1|H1]; [apply Z.leb_gt in H1; lia|apply Z.ltb_ge in H1].
      destruct H2 as [H2|H2]; [apply Z.ltb_ge in H2; lia|apply Z.leb_gt in H2; lia].
    + apply orb_false_iff; split; apply andb_false_iff.
      * right; apply Z.ltb_ge; lia.
      * destruct H as [H|H]; [left; apply Z.ltb_ge; lia|right; apply Z.leb_gt; lia].
  - intros b rest Hb.
    unfold read_char_escape; unfold bind at 1; rewrite read_byte_cons; cbv beta iota.
    destruct (Z.eqb_spec b quote); [destruct Hq; lia|].
    destruct (Z.eqb_spec b 92); [lia|].
    destruct Hb as [Hb|Hb].
    + destruct (Z.ltb_spec b 32); [reflexivity|lia].
    + destruct (Z.ltb_spec b 32); [reflexivity|].
      destruct (Z.ltb_spec 126 b); [reflexivity|lia].
  - intros e c rest -> H; apply quoted_string_one, H.
  - intros e c rest -> H; apply quoted_char_one, H.
Qed.

Lemma read_char_escape_spec_witness :
  (34 = 34 \/ 34 = 39) /\
  read_char_escape 34 (92 :: 110 :: []) = Ok (Some 10, []).
Proof.
  split; [left; reflexivity|].
  destruct (read_char_escape_spec 34 (or_introl eq_refl)) as [H _].
  apply (H []).
Defined.

(** *** collect.rs: version and flags chosen by [Collection::write] *)

Lemma global_size_same (imgs : list Image) :
  isSome (global_size imgs) = true <-> same_size imgs.
Proof.
  unfold same_size; destruct imgs as [|i0 rest].
  - simpl; split; [intros _ i j []|reflexivity].
  - unfold global_size.
    match goal with |- context [forallb ?f ?l] => destruct (forallb f l) eqn:E end; simpl.
    + split; [intros _|reflexivity].
      rewrite forallb_forall in E.
      intros i j Hi Hj.
      specialize (E i Hi) as Ei; specialize (E j Hj) as Ej.
      rewrite andb_true_iff, !Z.eqb_eq in Ei, Ej; lia.
    + split; [discriminate|intro H].
      apply not_true_iff_false in E; exfalso; apply E.
      apply forallb_forall; intros i Hi.
      destruct (H i i0 Hi (or_introl eq_refl)) as [H1 H2].
      rewrite H1, H2, !Z.eqb_refl; reflexivity.
Qed.

Lemma global_size_some (imgs : list Image) (w h : Z) :
  global_size imgs = Some (w, h) ->
  (imgs = [] -> w = 0 /\ h = 0) /\ (forall i, In i imgs -> width i = w /\ height i = h).
Proof.
  destruct imgs as [|i0 rest]; intro H.
  - simpl in H; inversion H; subst; split; [auto|intros i []].
  - unfold global_size in H.
    match goal with H : context [forallb ?f ?l] |- _ => destruct (forallb f l) eqn:E end;
      inversion H; subst; clear H.
    split; [discriminate|].
    rewrite forallb_forall in E; intros i Hi; specialize (E i Hi).
    rewrite andb_true_iff, !Z.eqb_eq in E; exact E.
Qed.

Lemma has_string_tags_any (imgs : list Image) :
  has_string_tags imgs = true <-> any_tag imgs.
Proof.
  unfold has_string_tags, any_tag; rewrite existsb_exists.
  split; intros [i [Hi Ht]]; exists i; split; auto;
    destruct (tag i); simpl in *; congruence.
Qed.

Lemma has_metadata_any (imgs : list Image) :
  has_metadata imgs = true <-> any_metadata imgs.
Proof.
  unfold has_metadata, any_metadata; rewrite existsb_exists.
  split; intros [i [Hi Ht]]; exists i; split; auto;
    destruct (metadata i); simpl in *; congruence.
Qed.

Lemma bool_iff_false (b : bool) (P : Prop) : (b = true <-> P) -> (b = false <-> ~ P).
Proof. destruct b; intuition congruence. Qed.

Lemma write_flags_bits (c : Collection) :
  0 <= write_flags c < 8 /\
  Z.testbit (write_flags c) 0 = negb (isSome (global_size (images c))) /\
  Z.testbit (write_flags c) 1 = has_string_tags (images c) /\
  Z.testbit (write_flags c) 2 = has_metadata (images c).
Proof.
  unfold write_flags.
  destruct (isSome (global_size (images c))), (has_string_tags (images c)),
    (has_metadata (images c)); cbv; intuition discriminate.
Qed.

(** C2: [Collection::write] emits the version-0 header
    "ahi0 w<w> h<h> n<count>" exactly when the collection has no palette,
    all its images have one size [(w, h)] ([(0, 0)] for no image), no tag
    and no metadata.  Otherwise it emits "ahi1 f<flags> p<count> i<count>",
    followed by " w<w> h<h>" exactly when all images have one size; bit 0
    of the flags is set iff the sizes differ, bit 1 iff some image has a
    tag and bit 2 iff some image has metadata. *)
Theorem Collection_write_version_flags (c : Collection) :
  (palettes c = [] /\ same_size (images c) /\ ~ any_tag (images c) /\
   ~ any_metadata (images c) ->
   exists w h rest,
     Collection_write c =
       bs "ahi0 w" ++ fmt_dec w ++ bs " h" ++ fmt_dec h ++ bs " n"
         ++ fmt_dec (Z.of_nat (List.length (images c))) ++ [10] ++ rest /\
     (images c = [] -> w = 0 /\ h = 0) /\
     (forall i, In i (images c) -> width i = w /\ height i = h)) /\
  (~ (palettes c = [] /\ same_size (images c) /\ ~ any_tag (images c) /\
      ~ any_metadata (images c)) ->
   exists flags size_fields rest,
     Collection_write c =
       bs "ahi1 f" ++ fmt_X 0 flags
         ++ bs " p" ++ fmt_dec (Z.of_nat (List.length (palettes c)))
         ++ bs " i" ++ fmt_dec (Z.of_nat (List.length (images c)))
         ++ size_fields ++ [10] ++ rest /\
     0 <= flags < 8 /\
     (Z.testbit flags 0 = true <-> ~ same_size (images c)) /\
     (Z.testbit flags 1 = true <-> any_tag (images c)) /\
     (Z.testbit flags 2 = true <-> any_metadata (images c)) /\
     (same_size (images c) ->
        exists w h, size_fields = bs " w" ++ fmt_dec w ++ bs " h" ++ fmt_dec h /\
                    (images c = [] -> w = 0 /\ h = 0) /\
                    (forall i, In i (images c) -> width i = w /\ height i = h)) /\
     (~ same_size (images c) -> size_fields = [])).
Proof.
  pose proof (global_size_same (images c)) as Hgs.
  pose proof (has_string_tags_any (images c)) as Ht.
  pose proof (has_metadata_any (images c)) as Hm.
  unfold Collection_write, write_header, write_version.
  split.
  - intros (Hp & Hs & Hnt & Hnm).
    apply Hgs in Hs. apply bool_iff_false in Ht, Hm. apply Ht in Hnt. apply Hm in Hnm.
    rewrite Hp, Hnt, Hnm; simpl.
    destruct (global_size (images c)) as [[w h]|] eqn:E; [|discriminate].
    destruct (global_size_some _ _ _ E) as [H1 H2]; simpl.
    eexists w, h, _; split; [|split; auto].
    repeat progress (cbn [app]; rewrite <- ?app_assoc); reflexivity.
  - intro Hn.
    assert (Hv : (is_empty (palettes c) && isSome (global_size (images c))
                  && negb (has_string_tags (images c)) && negb (has_metadata (images c)))
                 = false).
    { destruct (is_empty (palettes c)) eqn:Ep;
        destruct (isSome (global_size (images c))) eqn:Eg;
        destruct (has_string_tags (images c)) eqn:Et;
        destruct (has_metadata (images c)) eqn:Em; simpl; auto.
      exfalso; apply Hn; split; [|split; [|split]].
      - destruct (palettes c); [reflexivity|discriminate].
      - apply Hgs; reflexivity.
      - intro H; apply Ht in H; congruence.
      - intro H; apply Hm in H; congruence. }
    rewrite Hv; change (1 =? 0) with false; cbv iota.
    pose proof (write_flags_bits c) as (Hr & B0 & B1 & B2).
    exists (write_flags c),
      (match global_size (images c) with
       | Some (w, h) => bs " w" ++ fmt_dec w ++ bs " h" ++ fmt_dec h
       | None => []
       end),
      ((if is_empty (palettes c) then []
        else [10] ++ flat_map Palette_write (palettes c))
       ++ flat_map (write_image (has_string_tags (images c)) (has_metadata (images c))
                                (global_size (images c))) (images c)).
    split; [rewrite <- !app_assoc; reflexivity|].
    rewrite B0, B1, B2.
    split; [exact Hr|]. split; [|split; [exact Ht|split; [exact Hm|split]]].
    + destruct (isSome (global_size (images c))); simpl; split.
      * discriminate.
      * intro H; exfalso; apply H, Hgs; reflexivity.
      * intros _ H; apply Hgs in H; discriminate.
      * reflexivity.
    + intro Hs; apply Hgs in Hs.
      destruct (global_size (images c)) as [[w h]|] eqn:E; [|discriminate].
      destruct (global_size_some _ _ _ E) as [H1 H2].
      exists w, h; split; [reflexivity|split; assumption].
    + intro Hs.
      destruct (global_size (images c)) as [[w h]|] eqn:E; [|reflexivity].
      exfalso; apply Hs, Hgs; reflexivity.
Qed.

(** *** palette.rs: one slot written by [Palette::write], read by [Palette::read] *)

Lemma digits_of_16_small (x : Z) : 0 <= x < 16 -> digits_of 16 x = [x].
Proof.
  intro H; unfold digits_of, digits_fuel.
  destruct x as [|p|p]; [reflexivity| |lia].
  destruct (Pos.size_nat p) eqn:E; [destruct p; discriminate|].
  cbn [digits_rev]; destruct (Z.ltb_spec (Z.pos p) 16); [reflexivity|lia].
Qed.

Lemma digits_of_16_two (x : Z) : 16 <= x < 256 -> digits_of 16 x = [x / 16; x mod 16].
Proof.
  intro H; unfold digits_of, digits_fuel.
  destruct x as [|p|p]; try lia.
  assert (Hs : (5 <= Pos.size_nat p)%nat).
  { destruct (Pos.eq_dec p 16) as [->|Hn]; [simpl; lia|].
    change 5%nat with (Pos.size_nat 16); apply Pos.size_nat_monotone; lia. }
  destruct (Pos.size_nat p) as [|[|f]]; try lia.
  cbn [digits_rev].
  destruct (Z.ltb_spec (Z.pos p) 16); [lia|].
  destruct (Z.ltb_spec (Z.pos p / 16) 16); [reflexivity|].
  exfalso; Z.div_mod_to_equations; lia.
Qed.

Lemma fmt_X1 (d : Z) : 0 <= d < 16 -> fmt_X 1 d = map hex_upper [d].
Proof. intro H; unfold fmt_X; rewrite digits_of_16_small by lia; reflexivity. Qed.

Lemma fmt_X2 (x : Z) : 0 <= x < 256 -> fmt_X 2 x = map hex_upper [x / 16; x mod 16].
Proof.
  intro H; unfold fmt_X; destruct (Z.ltb_spec x 16).
  - rewrite digits_of_16_small by lia.
    rewrite Z.div_small, Z.mod_small by lia; reflexivity.
  - rewrite digits_of_16_two by lia; reflexivity.
Qed.

Lemma hex_upper_digit (d : Z) :
  0 <= d < 16 -> is_hex_byte (hex_upper d) /\ digit_of (hex_upper d) = d.
Proof.
  intro H.
  assert (d = 0 \/ d = 1 \/ d = 2 \/ d = 3 \/ d = 4 \/ d = 5 \/ d = 6 \/ d = 7 \/
          d = 8 \/ d = 9 \/ d = 10 \/ d = 11 \/ d = 12 \/ d = 13 \/ d = 14 \/ d = 15)
    as Hd by lia.
  unfold is_hex_byte.
  repeat destruct Hd as [Hd|Hd]; subst; split; try reflexivity; vm_compute; discriminate.
Qed.

Lemma palette_terminator_not_hex (index : Z) : ~ is_hex_byte (palette_terminator index).
Proof.
  unfold palette_terminator, is_hex_byte.
  destruct (index =? 15); vm_compute; intro H; apply H; reflexivity.
Qed.

Lemma read_slot_hex (t : Z) (es rest : list Z) :
  ~ is_hex_byte t -> Forall (fun d => 0 <= d < 16) es ->
  read_slot t (map hex_upper es ++ t :: rest) =
  match slot_of_digits es with
  | Ok v => Ok (v, rest)
  | Err e => Err e
  | Diverges => Diverges
  end.
Proof.
  intros Ht Hes; unfold read_slot, bind.
  rewrite read_hex_digits_app.
  - rewrite map_map.
    replace (map (fun d => digit_of (hex_upper d)) es) with es; [reflexivity|].
    induction Hes as [|d es Hd Hes IH]; simpl; [reflexivity|].
    rewrite <- IH; f_equal; symmetry; apply hex_upper_digit, Hd.
  - rewrite Forall_map; eapply Forall_impl; [|exact Hes].
    intros d Hd; destruct (hex_upper_digit d Hd) as [H1 _].
    split; [exact H1|intro E; apply Ht; rewrite <- E; exact H1].
Qed.

Lemma slot_of_digits_bytes (ds : list Z) (r g b a : Z) :
  Forall (fun d => 0 <= d < 16) ds -> slot_of_digits ds = Ok (r, g, b, a) ->
  0 <= r < 256 /\ 0 <= g < 256 /\ 0 <= b < 256 /\ 0 <= a < 256.
Proof.
  intros Hds Hs.
  destruct ds as [|d0 [|d1 [|d2 [|d3 [|d4 [|d5 [|d6 [|d7 [|d8 ds]]]]]]]]];
    simpl in Hs; inversion Hs; subst;
    repeat match goal with H : Forall _ (_ :: _) |- _ => inversion H; subst; clear H end;
    lia.
Qed.

Ltac slot_case :=
  rewrite ?fmt_X1, ?fmt_X2 by (Z.div_mod_to_equations; lia);
  rewrite <- ?map_app; cbn [app];
  rewrite read_slot_hex
    by (first [assumption | repeat constructor; Z.div_mod_to_equations; lia]);
  cbn [slot_of_digits]; repeat f_equal; Z.div_mod_to_equations; lia.

Lemma write_slot_roundtrip (t r g b a : Z) (rest : list Z) :
  ~ is_hex_byte t -> 0 <= r < 256 -> 0 <= g < 256 -> 0 <= b < 256 -> 0 < a < 256 ->
  read_slot t (write_slot (r, g, b, a) ++ t :: rest) = Ok ((r, g, b, a), rest).
Proof.
  intros Ht Hr Hg Hb Ha; unfold write_slot; cbv beta iota zeta.
  destruct (Z.eqb_spec a 0); [lia|].
  destruct ((r mod 17 =? 0) && (g mod 17 =? 0) && (b mod 17 =? 0)) eqn:Es;
    [rewrite !andb_true_iff, !Z.eqb_eq in Es; destruct Es as [[Es1 Es2] Es3]|].
  all: destruct (Z.eqb_spec a 255).
  all: try (destruct ((r =? g) && (g =? b)) eqn:Eg;
            [rewrite !andb_true_iff, !Z.eqb_eq in Eg; destruct Eg as [Eg1 Eg2];
             destruct (Z.eqb_spec (r mod 17) 0)|]).
  all: try destruct (Z.eqb_spec (a mod 17) 0).
  all: slot_case.
Qed.

Lemma write_slot_length (r g b a : Z) :
  0 <= r < 256 -> 0 <= g < 256 -> 0 <= b < 256 -> 0 <= a < 256 ->
  List.length (write_slot (r, g, b, a)) =
  (let short := (r mod 17 =? 0) && (g mod 17 =? 0) && (b mod 17 =? 0) in
   if a =? 0 then 0%nat
   else if a =? 255 then
     if (r =? g) && (g =? b) then if r mod 17 =? 0 then 1%nat else 2%nat
     else if short then 3%nat else 6%nat
   else if a mod 17 =? 0 then if short then 4%nat else 7%nat
   else if short then 5%nat else 8%nat).
Proof.
  intros Hr Hg Hb Ha; unfold write_slot; cbv beta iota zeta.
  repeat match goal with |- context [if ?c then _ else _] => destruct c end;
    rewrite ?fmt_X1, ?fmt_X2 by (Z.div_mod_to_equations; lia);
    rewrite ?length_app, ?length_map; reflexivity.
Qed.

Lemma write_slot_shortest (ds : list Z) (r g b a : Z) :
  Forall (fun d => 0 <= d < 16) ds -> slot_of_digits ds = Ok (r, g, b, a) ->
  (List.length (write_slot (r, g, b, a)) <= List.length ds)%nat.
Proof.
  intros Hds Hs.
  destruct (slot_of_digits_bytes ds r g b a Hds Hs) as (Hr & Hg & Hb & Ha).
  rewrite write_slot_length by assumption; cbv zeta.
  destruct ds as [|d0 [|d1 [|d2 [|d3 [|d4 [|d5 [|d6 [|d7 [|d8 ds]]]]]]]]];
    simpl in Hs; inversion Hs; subst;
    repeat match goal with H : Forall _ (_ :: _) |- _ => inversion H; subst; clear H end;
    repeat (match goal with |- context [?x =? ?y] => destruct (Z.eqb_spec x y) end;
            cbn [andb]);
    cbn [List.length]; Z.div_mod_to_equations; lia.
Qed.

(** C3 (counterexample): the field "F000" decodes to [(255, 0, 0, 0)], a
    reachable value; [Palette::write] encodes it, like every value with
    alpha 0, as the empty field, which decodes to [(0, 0, 0, 0)]. *)
Lemma palette_slot_alpha_zero_lost :
  read_slot 59 (bs "F000;") = Ok ((255, 0, 0, 0), []) /\
  write_slot (255, 0, 0, 0) = [] /\
  read_slot 59 (write_slot (255, 0, 0, 0) ++ [59]) = Ok ((0, 0, 0, 0), []).
Proof. split; [|split]; vm_compute; reflexivity. Qed.

(** C3 (amended): for every RGBA value [(r, g, b, a)] decoded from a field
    of hex digits [ds] (so at most 8 of them), the encoder of
    [Palette::write] emits no more digits than [ds] has; decoding the
    encoded field, followed by the slot's terminator, gives the value back
    when [a <> 0] or the value is [(0, 0, 0, 0)]; and when [a = 0] the
    encoded field is empty. *)
Theorem write_slot_read_slot (index : Z) (ds rest : list Z) (r g b a : Z) :
  Forall (fun d => 0 <= d < 16) ds ->
  slot_of_digits ds = Ok (r, g, b, a) ->
  (List.length (write_slot (r, g, b, a)) <= List.length ds)%nat /\
  (a <> 0 \/ (r, g, b, a) = (0, 0, 0, 0) ->
   read_slot (palette_terminator index)
     (write_slot (r, g, b, a) ++ palette_terminator index :: rest)
   = Ok ((r, g, b, a), rest)) /\
  (a = 0 -> write_slot (r, g, b, a) = []).
Proof.
  intros Hds Hs.
  destruct (slot_of_digits_bytes ds r g b a Hds Hs) as (Hr & Hg & Hb & Ha).
  split; [apply (write_slot_shortest ds); assumption|split].
  - intros [Hnz|Hz].
    + apply write_slot_roundtrip; [apply palette_terminator_not_hex|lia..].
    + inversion Hz; subst.
      unfold read_slot, bind; simpl.
      rewrite Z.eqb_refl; reflexivity.
  - intros ->; unfold write_slot; cbv beta iota zeta; reflexivity.
Qed.

Lemma write_slot_read_slot_witness :
  Forall (fun d => 0 <= d < 16) [15; 0; 0; 15] /\
  slot_of_digits [15; 0; 0; 15] = Ok (255, 0, 0, 255) /\
  (le (List.length (write_slot (255, 0, 0, 255))) (List.length [15; 0; 0; 15]) /\
   (255 <> 0 \/ (255, 0, 0, 255) = (0, 0, 0, 0) ->
    read_slot (palette_terminator 0)
      (write_slot (255, 0, 0, 255) ++ palette_terminator 0 :: [])
    = Ok ((255, 0, 0, 255), [])) /\
   (255 = 0 -> write_slot (255, 0, 0, 255) = [])).
Proof.
  split; [repeat constructor; lia|split; [reflexivity|]].
  apply (write_slot_read_slot 0 [15; 0; 0; 15] [] 255 0 0 255);
    [repeat constructor; lia|reflexivity].
Defined.

(** *** Formatting read back: decimal and hex digits *)

Lemma digits_rev_value (base : Z) (fuel : nat) (n : Z) :
  2 <= base -> 0 <= n ->
  fold_right (fun d acc => acc * base + d) 0 (digits_rev base fuel n) = n.
Proof.
  revert n; induction fuel as [|fuel IH]; intros n Hb Hn; simpl; [lia|].
  destruct (Z.ltb_spec n base); simpl; [lia|].
  rewrite IH by (try apply Z.div_pos; lia).
  pose proof (Z.div_mod n base ltac:(lia)); lia.
Qed.

Lemma digits_rev_bound (base : Z) (fuel : nat) (n : Z) :
  2 <= base -> 0 <= n < base ^ Z.of_nat (S fuel) ->
  Forall (fun d => 0 <= d < base) (digits_rev base fuel n).
Proof.
  revert n; induction fuel as [|fuel IH]; intros n Hb Hn; simpl.
  - change (Z.of_nat 1) with 1 in Hn; rewrite Z.pow_1_r in Hn; repeat constructor; lia.
  - destruct (Z.ltb_spec n base); [repeat constructor; lia|].
    constructor; [apply Z.mod_pos_bound; lia|].
    apply IH; [lia|split; [apply Z.div_pos; lia|]].
    apply Z.div_lt_upper_bound; [lia|].
    rewrite <- Z.pow_succ_r by lia.
    replace (Z.succ (Z.of_nat (S fuel))) with (Z.of_nat (S (S fuel))) by lia; lia.
Qed.

Lemma digits_rev_length (base : Z) (fuel : nat) (n : Z) (k : nat) :
  2 <= base -> 0 <= n < base ^ Z.of_nat (S k) ->
  (List.length (digits_rev base fuel n) <= S k)%nat.
Proof.
  revert n k; induction fuel as [|fuel IH]; intros n k Hb Hn; simpl; [lia|].
  destruct (Z.ltb_spec n base); simpl; [lia|].
  destruct k as [|k].
  - change (Z.of_nat 1) with 1 in Hn; rewrite Z.pow_1_r in Hn; lia.
  - apply le_n_S, IH; [lia|split; [apply Z.div_pos; lia|]].
    apply Z.div_lt_upper_bound; [lia|].
    rewrite <- Z.pow_succ_r by lia.
    replace (Z.succ (Z.of_nat (S k))) with (Z.of_nat (S (S k))) by lia; lia.
Qed.

Lemma size_nat_bound (p : positive) : Z.pos p < 2 ^ Z.of_nat (Pos.size_nat p).
Proof.
  induction p as [p IH|p IH|]; cbn [Pos.size_nat].
  - rewrite Nat2Z.inj_succ, Z.pow_succ_r, Pos2Z.inj_xI by lia; lia.
  - rewrite Nat2Z.inj_succ, Z.pow_succ_r, Pos2Z.inj_xO by lia; lia.
  - change (Z.of_nat 1) with 1; rewrite Z.pow_1_r; lia.
Qed.

Lemma digits_fuel_enough (base n : Z) :
  2 <= base -> 0 <= n -> n < base ^ Z.of_nat (S (digits_fuel n)).
Proof.
  intros Hb Hn; unfold digits_fuel.
  destruct n as [|p|p]; [change (Z.of_nat 1) with 1; rewrite Z.pow_1_r; lia| |lia].
  pose proof (size_nat_bound p) as H.
  assert (2 ^ Z.of_nat (Pos.size_nat p) <= base ^ Z.of_nat (Pos.size_nat p))
    by (apply Z.pow_le_mono_l; lia).
  assert (base ^ Z.of_nat (Pos.size_nat p) <= base ^ Z.of_nat (S (Pos.size_nat p)))
    by (apply Z.pow_le_mono_r; lia).
  lia.
Qed.

Lemma fold_left_rev_Z (f : Z -> Z -> Z) (l : list Z) (v : Z) :
  fold_left f (rev l) v = fold_right (fun x y => f y x) v l.
Proof.
  rewrite <- (rev_involutive l) at 2.
  rewrite fold_left_rev_right; reflexivity.
Qed.

Lemma digits_of_spec (base n : Z) :
  2 <= base -> 0 <= n ->
  digits_of base n <> [] /\
  Forall (fun d => 0 <= d < base) (digits_of base n) /\
  fold_left (fun v d => v * base + d) (digits_of base n) 0 = n.
Proof.
  intros Hb Hn; unfold digits_of; split; [|split].
  - destruct (digits_fuel n); simpl; [discriminate|].
    destruct (n <? base); simpl; [discriminate|].
    intro E; apply app_eq_nil in E as [_ E]; discriminate.
  - apply Forall_rev, digits_rev_bound; [lia|split; [lia|apply digits_fuel_enough; lia]].
  - rewrite fold_left_rev_Z; apply digits_rev_value; lia.
Qed.

Lemma digits_of_length (base n : Z) (k : nat) :
  2 <= base -> 0 <= n < base ^ Z.of_nat (S k) ->
  (List.length (digits_of base n) <= S k)%nat.
Proof.
  intros Hb Hn; unfold digits_of; rewrite length_rev; apply digits_rev_length; lia.
Qed.

Lemma dec_from_map (l : list Z) (v : Z) :
  dec_from v (map (fun d => 48 + d) l) = fold_left (fun v d => v * 10 + d) l v.
Proof.
  revert v; induction l as [|d l IH]; intro v; [reflexivity|].
  unfold dec_from in *; cbn [map fold_left]; rewrite IH.
  replace (v * 10 + (48 + d - 48)) with (v * 10 + d) by lia; reflexivity.
Qed.

Lemma fmt_dec_digits (t n : Z) :
  0 <= n -> is_ascii_digit t = false ->
  fmt_dec n <> [] /\ digits_ok t (fmt_dec n) /\ dec_value (fmt_dec n) = n.
Proof.
  intros Hn Ht; destruct (digits_of_spec 10 n) as (H1 & H2 & H3); try lia.
  unfold fmt_dec, dec_value; split; [|split].
  - destruct (digits_of 10 n); [contradiction|discriminate].
  - unfold digits_ok; rewrite Forall_map; eapply Forall_impl; [|exact H2].
    intros d Hd; cbv beta in Hd |- *; split; [apply is_ascii_digit_range; lia|intro E].
    rewrite <- E in Ht; rewrite <- not_true_iff_false, is_ascii_digit_range in Ht; lia.
  - rewrite dec_from_map; exact H3.
Qed.

Lemma read_header_uint_fmt_dec (t n : Z) (rest : list Z) :
  0 <= n <= 65535 -> is_ascii_digit t = false ->
  read_header_uint t (fmt_dec n ++ t :: rest) = Ok (n, rest).
Proof.
  intros Hn Ht; destruct (fmt_dec_digits t n) as (H1 & H2 & H3); try lia; auto.
  rewrite read_header_uint_unfold.
  change (fmt_dec n ++ t :: rest) with ([] ++ fmt_dec n ++ t :: rest).
  rewrite (read_header_int_prefix t [] (fmt_dec n) (t :: rest)); [|left; reflexivity|exact H2|lia].
  rewrite H3, header_int_loop_cons, Z.eqb_refl.
  destruct (fmt_dec n); [contradiction|]; simpl.
  destruct (Z.ltb_spec n 0); [lia|reflexivity].
Qed.

Lemma read_exact_app (e rest : list Z) :
  read_exact (List.length e) (e ++ rest) = Ok (e, rest).
Proof. induction e as [|b e IH]; simpl; [reflexivity|rewrite IH; reflexivity]. Qed.

Lemma list_Z_eqb_refl (l : list Z) : list_Z_eqb l l = true.
Proof. induction l; simpl; [reflexivity|rewrite Z.eqb_refl; assumption]. Qed.

Lemma read_exactly_app (e rest : list Z) : read_exactly e (e ++ rest) = Ok (tt, rest).
Proof.
  unfold read_exactly, bind; rewrite read_exact_app, list_Z_eqb_refl; reflexivity.
Qed.

Lemma read_hex_u32_fmt_X (f : Z) (rest : list Z) :
  0 <= f < 16 -> read_hex_u32 32 (fmt_X 0 f ++ 32 :: rest) = Ok (f, rest).
Proof.
  intro Hf; unfold fmt_X; rewrite digits_of_16_small by lia; cbn [List.length repeat app map].
  rewrite (read_hex_u32_app 32 [hex_upper f]); [|simpl; lia|].
  - destruct (hex_upper_digit f Hf) as [_ E]; simpl; rewrite E; reflexivity.
  - destruct (hex_upper_digit f Hf) as [Hh _].
    destruct (hex_byte_not _ Hh) as (_ & H32 & _).
    constructor; [split; [exact Hh|exact H32]|constructor].
Qed.

(** *** Tags: [char::escape_default] read back by [read_quoted_string] *)

Lemma hex_lower_digit (d : Z) :
  0 <= d < 16 -> is_hex_byte (hex_lower d) /\ digit_of (hex_lower d) = d.
Proof.
  intro H.
  assert (d = 0 \/ d = 1 \/ d = 2 \/ d = 3 \/ d = 4 \/ d = 5 \/ d = 6 \/ d = 7 \/
          d = 8 \/ d = 9 \/ d = 10 \/ d = 11 \/ d = 12 \/ d = 13 \/ d = 14 \/ d = 15)
    as Hd by lia.
  unfold is_hex_byte.
  repeat destruct Hd as [Hd|Hd]; subst; split; try reflexivity; vm_compute; discriminate.
Qed.

Lemma escape_default_read (c : Z) (s : list Z) :
  char_from_u32_ok c = true ->
  read_char_escape 34 (escape_default c ++ s) = Ok (Some c, s).
Proof.
  intro Hc; unfold escape_default.
  destruct (Z.eqb_spec c 9); [subst; reflexivity|].
  destruct (Z.eqb_spec c 13); [subst; reflexivity|].
  destruct (Z.eqb_spec c 10); [subst; reflexivity|].
  destruct (Z.eqb_spec c 92); [subst; reflexivity|].
  destruct (Z.eqb_spec c 39); [subst; reflexivity|].
  destruct (Z.eqb_spec c 34); [subst; reflexivity|]; cbn [orb].
  destruct ((32 <=? c) && (c <=? 126)) eqn:Ep.
  - apply andb_true_iff in Ep as [E1 E2]; apply Z.leb_le in E1, E2.
    cbn [app]; unfold read_char_escape; unfold bind at 1; rewrite read_byte_cons;
      cbv beta iota.
    destruct (Z.eqb_spec c 34); [contradiction|].
    destruct (Z.eqb_spec c 92); [contradiction|].
    destruct (Z.ltb_spec c 32); [lia|]; destruct (Z.ltb_spec 126 c); [lia|].
    reflexivity.
  - assert (Hr : 0 <= c <= 1114111).
    { unfold char_from_u32_ok in Hc.
      apply orb_true_iff in Hc as [H|H]; apply andb_true_iff in H as [H1 H2];
        rewrite ?Z.leb_le, ?Z.ltb_lt in H1, H2; lia. }
    destruct (digits_of_spec 16 c) as (Hne & Hds & Hv); try lia.
    pose proof (digits_of_length 16 c 7 ltac:(lia) ltac:(simpl; lia)) as Hlen.
    assert (Hds' : Forall (fun b => is_hex_byte b /\ b <> 125) (map hex_lower (digits_of 16 c))).
    { rewrite Forall_map; eapply Forall_impl; [|exact Hds]; intros d Hd.
      destruct (hex_lower_digit d Hd) as [H1 _]; split; [exact H1|apply hex_byte_not, H1]. }
    assert (Hlen' : (1 <= List.length (map hex_lower (digits_of 16 c)) <= 8)%nat).
    { rewrite length_map; destruct (digits_of 16 c); [contradiction|simpl in *; lia]. }
    assert (Hval : hex_value (map digit_of (map hex_lower (digits_of 16 c))) = c).
    { rewrite map_map.
      replace (map (fun d => digit_of (hex_lower d)) (digits_of 16 c)) with (digits_of 16 c);
        [exact Hv|].
      clear -Hds; induction Hds as [|d l Hd Hl IH]; [reflexivity|].
      cbn [map]; rewrite <- IH; f_equal; symmetry; apply hex_lower_digit, Hd. }
    rewrite <- !app_assoc; cbn [app].
    unfold read_char_escape; change (bs "{") with [123]; cbn; unfold bind; cbn.
    rewrite (read_hex_u32_app 125 _ s Hlen' Hds'); cbn.
    rewrite Hval, Hc; reflexivity.
Qed.

Lemma escape_default_nonempty (c : Z) : escape_default c <> [].
Proof.
  unfold escape_default.
  repeat match goal with |- context [if ?b then _ else _] => destruct b end;
    discriminate.
Qed.

Lemma flat_map_escape_length (tag : list Z) :
  (List.length tag <= List.length (flat_map escape_default tag))%nat.
Proof.
  induction tag as [|c tag IH]; simpl; [lia|].
  rewrite length_app; pose proof (escape_default_nonempty c).
  destruct (escape_default c); [contradiction|simpl; lia].
Qed.

Lemma quoted_string_loop_tag (tag rest : list Z) :
  Forall (fun c => char_from_u32_ok c = true) tag ->
  forall fuel acc, (List.length tag < fuel)%nat ->
  quoted_string_loop fuel acc (flat_map escape_default tag ++ 34 :: rest)
  = Ok (acc ++ tag, rest).
Proof.
  induction 1 as [|c tag Hc Htag IH]; intros fuel acc Hf;
    (destruct fuel as [|fuel]; [simpl in Hf; lia|]).
  - simpl; rewrite app_nil_r; reflexivity.
  - cbn [quoted_string_loop flat_map]; unfold bind at 1.
    rewrite <- app_assoc, escape_default_read by exact Hc.
    rewrite IH by (simpl in Hf; lia).
    rewrite <- app_assoc; reflexivity.
Qed.

Lemma read_quoted_string_tag (tag rest : list Z) :
  Forall (fun c => char_from_u32_ok c = true) tag ->
  read_quoted_string ([34] ++ flat_map escape_default tag ++ 34 :: rest) = Ok (tag, rest).
Proof.
  intro Ht; unfold read_quoted_string; unfold bind at 1.
  rewrite read_exactly_app; cbv beta iota.
  rewrite quoted_string_loop_tag; [reflexivity|exact Ht|].
  rewrite length_app; pose proof (flat_map_escape_length tag); simpl; lia.
Qed.

(** *** Metadata: [write!] of the values read back by [read_list_of_i16s] *)

Lemma list_int_loop_digits (ds rest : list Z) :
  forall ve negative any_digits v,
  Forall (fun b => is_ascii_digit b = true) ds -> 0 <= v -> dec_from v ds <= 32768 ->
  list_int_loop ve negative any_digits v (ds ++ rest) =
  list_int_loop ve negative (any_digits || negb (is_empty ds)) (dec_from v ds) rest.
Proof.
  induction ds as [|b ds IH]; intros ve negative any_digits v Hds Hv Hle.
  - cbn [app is_empty negb]; rewrite orb_false_r; reflexivity.
  - inversion Hds as [|? ? Hb Hds']; subst.
    apply is_ascii_digit_range in Hb.
    assert (Hm : v * 10 + (b - 48) <= dec_from (v * 10 + (b - 48)) ds).
    { apply (dec_from_mono 0); [|lia].
      unfold digits_ok; eapply Forall_impl; [|exact Hds']; intros x Hx; split; [exact Hx|].
      apply is_ascii_digit_range in Hx; lia. }
    change (dec_from v (b :: ds)) with (dec_from (v * 10 + (b - 48)) ds) in *.
    cbn [app list_int_loop].
    destruct (Z.eqb_spec b 93); [lia|]; destruct (Z.eqb_spec b 44); [lia|]; cbn [orb].
    destruct (Z.eqb_spec b 45); [lia|].
    destruct (Z.ltb_spec b 48); [lia|]; destruct (Z.ltb_spec 57 b); [lia|]; cbn [orb].
    destruct (Z.ltb_spec 32768 (v * 10 + (b - 48))); [lia|].
    rewrite IH by (auto; lia).
    rewrite orb_true_r; reflexivity.
Qed.

Lemma list_int_loop_fmt_i16 (ve : bool) (v t : Z) (rest : list Z) :
  is_i16 v -> t = 44 \/ t = 93 ->
  list_int_loop ve false false 0 (fmt_i16 v ++ t :: rest) =
  Ok ((v <? 0, true, Z.abs v, t =? 93), rest).
Proof.
  intros Hv Ht; unfold is_i16 in Hv.
  assert (Hend : forall negative w,
             list_int_loop ve negative true w (t :: rest) =
             Ok ((negative, true, w, t =? 93), rest)).
  { intros negative w; cbn [list_int_loop].
    destruct Ht as [-> | ->]; reflexivity. }
  assert (Hd : forall n, 0 <= n <= 32768 -> forall negative,
             list_int_loop ve negative false 0 (fmt_dec n ++ t :: rest) =
             Ok ((negative, true, n, t =? 93), rest)).
  { intros n Hn negative.
    destruct (fmt_dec_digits 58 n) as (H1 & H2 & H3); [lia|reflexivity|].
    rewrite list_int_loop_digits.
    - unfold dec_value in H3; rewrite H3.
      destruct (fmt_dec n); [contradiction|apply Hend].
    - eapply Forall_impl; [|exact H2]; intros b [Hb _]; exact Hb.
    - lia.
    - unfold dec_value in H3; lia. }
  unfold fmt_i16; destruct (Z.ltb_spec v 0).
  - cbn [app list_int_loop].
    change (45 =? 93) with false; change (45 =? 44) with false; cbn [orb].
    change (45 =? 45) with true; cbn [orb negb].
    rewrite Hd by lia.
    replace (v <? 0) with true by (symmetry; apply Z.ltb_lt; lia).
    rewrite Z.abs_neq by lia; reflexivity.
  - rewrite Hd by lia.
    replace (v <? 0) with false by (symmetry; apply Z.ltb_ge; lia).
    rewrite Z.abs_eq by lia; reflexivity.
Qed.

Lemma list_loop_metadata (md rest : list Z) :
  md <> [] -> Forall is_i16 md ->
  forall fuel values, (List.length md < fuel)%nat ->
  list_loop fuel values (intercalate_comma (map fmt_i16 md) ++ 93 :: rest)
  = Ok (values ++ md, rest).
Proof.
  intros Hne Hmd; induction Hmd as [|v md Hv Hmd IH]; [contradiction|].
  intros fuel values Hf; destruct fuel as [|fuel]; [simpl in Hf; lia|].
  assert (Hval : forall negative,
             negative = (v <? 0) ->
             (if negative then - Z.abs v else Z.abs v) = v).
  { intros negative ->; unfold is_i16 in Hv.
    destruct (Z.ltb_spec v 0); [rewrite Z.abs_neq|rewrite Z.abs_eq]; lia. }
  assert (Hrange : ((32767 <? v) || (v <? -32768)) = false).
  { unfold is_i16 in Hv; apply orb_false_iff; split; [apply Z.ltb_ge|apply Z.ltb_ge]; lia. }
  destruct md as [|v' md'].
  - cbn [map intercalate_comma list_loop]; unfold bind at 1.
    rewrite list_int_loop_fmt_i16 by auto; cbv beta iota.
    rewrite (Hval (v <? 0)), Hrange by reflexivity; reflexivity.
  - change (intercalate_comma (map fmt_i16 (v :: v' :: md')))
      with (fmt_i16 v ++ bs ", " ++ intercalate_comma (map fmt_i16 (v' :: md'))).
    change (bs ", ") with [44; 32].
    rewrite <- !app_assoc; cbn [app list_loop]; unfold bind at 1.
    rewrite list_int_loop_fmt_i16 by auto; cbv beta iota.
    rewrite (Hval (v <? 0)), Hrange by reflexivity; cbn [orb negb].
    change (44 =? 93) with false; cbv iota.
    change (bs " ") with [32]; unfold bind at 1.
    change (32 :: ?l) with ([32] ++ l); rewrite read_exactly_app; cbv beta iota.
    rewrite IH by (discriminate || (simpl in Hf |- *; lia)).
    rewrite <- app_assoc; reflexivity.
Qed.

Lemma fmt_i16_nonempty (v : Z) : fmt_i16 v <> [].
Proof.
  unfold fmt_i16; destruct (v <? 0); [discriminate|].
  unfold fmt_dec; destruct (digits_of_spec 10 (Z.abs v)) as (H & _); [lia|lia|].
  destruct (Z.leb_spec 0 v).
  - rewrite Z.abs_eq in H by lia; destruct (digits_of 10 v); [contradiction|discriminate].
  - unfold digits_of, digits_fuel; destruct v; simpl; try discriminate; lia.
Qed.

Lemma intercalate_length (md : list Z) :
  (List.length md <= List.length (intercalate_comma (map fmt_i16 md)))%nat.
Proof.
  induction md as [|v md IH]; [simpl; lia|].
  pose proof (fmt_i16_nonempty v) as Hv.
  destruct md as [|v' md'].
  - simpl; destruct (fmt_i16 v); [contradiction|simpl; lia].
  - change (intercalate_comma (map fmt_i16 (v :: v' :: md')))
      with (fmt_i16 v ++ bs ", " ++ intercalate_comma (map fmt_i16 (v' :: md'))).
    assert (1 <= List.length (fmt_i16 v))%nat
      by (destruct (fmt_i16 v); [contradiction|simpl; lia]).
    change (bs ", ") with [44; 32].
    rewrite !length_app; cbn [List.length] in *; lia.
Qed.

Lemma read_list_of_i16s_metadata (md rest : list Z) :
  Forall is_i16 md ->
  read_list_of_i16s (bs "[" ++ intercalate_comma (map fmt_i16 md) ++ bs "]" ++ rest)
  = Ok (md, rest).
Proof.
  intro Hmd; unfold read_list_of_i16s; unfold bind at 1.
  rewrite read_exactly_app; cbv beta iota.
  change (bs "]") with [93]; cbn [app].
  destruct md as [|v md'].
  - reflexivity.
  - rewrite list_loop_metadata; [reflexivity|discriminate|exact Hmd|].
    rewrite length_app; pose proof (intercalate_length (v :: md')); simpl in *; lia.
Qed.

(** *** Palettes and image grids read back *)

Lemma bind_ok {A B : Type} (m : reader A) (k : A -> reader B) (s s' : list Z) (a : A) :
  m s = Ok (a, s') -> bind m k s = k a s'.
Proof. intro H; unfold bind; rewrite H; reflexivity. Qed.

Lemma read_slot_write (v : rgba) (t : Z) (rest : list Z) :
  slot_ok v -> ~ is_hex_byte t ->
  read_slot t (write_slot v ++ t :: rest) = Ok (v, rest).
Proof.
  destruct v as [[[r g] b] a]; intros (Hr & Hg & Hb & Ha & Hz) Ht.
  destruct Hz as [Hz|Hz].
  - apply write_slot_roundtrip; auto; lia.
  - inversion Hz; subst; unfold read_slot, bind; simpl.
    rewrite Z.eqb_refl; reflexivity.
Qed.

Lemma read_slots_write (slots : list rgba) (rest : list Z) :
  Forall slot_ok slots -> forall index,
  read_slots (List.length slots) index (write_slots index slots ++ rest) = Ok (slots, rest).
Proof.
  induction 1 as [|v slots Hv Hs IH]; intro index; [reflexivity|].
  cbn [List.length read_slots write_slots].
  rewrite <- !app_assoc; cbn [app].
  rewrite (bind_ok _ _ _ _ _ (read_slot_write v _ _ Hv (palette_terminator_not_hex index))).
  rewrite (bind_ok _ _ _ _ _ (IH (index + 1))); reflexivity.
Qed.

Lemma read_palettes_write (ps : list Palette) (rest : list Z) :
  Forall palette_ok ps ->
  read_palettes (List.length ps) (flat_map Palette_write ps ++ rest) = Ok (ps, rest).
Proof.
  induction 1 as [|p ps [Hl Hp] Hps IH]; [reflexivity|].
  cbn [List.length read_palettes flat_map]; rewrite <- app_assoc.
  assert (Hr : Palette_read (Palette_write p ++ flat_map Palette_write ps ++ rest)
               = Ok (p, flat_map Palette_write ps ++ rest)).
  { unfold Palette_read, Palette_write; rewrite <- Hl.
    rewrite (bind_ok _ _ _ _ _ (read_slots_write _ _ Hp 0)).
    destruct p; reflexivity. }
  rewrite (bind_ok _ _ _ _ _ Hr), (bind_ok _ _ _ _ _ IH); reflexivity.
Qed.

Lemma Color_from_to (c : Color) : Color_from_byte (Color_to_byte c) = Ok c.
Proof. destruct c; reflexivity. Qed.

Lemma colors_of_bytes_map (l : list Color) : colors_of_bytes (map Color_to_byte l) = Ok l.
Proof. induction l as [|c l IH]; simpl; [reflexivity|rewrite Color_from_to, IH; reflexivity]. Qed.

Lemma read_rows_write (w : Z) (h : nat) (rest : list Z) (pxs : list Color) :
  0 <= w -> List.length pxs = (Z.to_nat w * h)%nat ->
  read_rows w h (write_rows (Z.to_nat w) h pxs ++ rest) = Ok (pxs, rest).
Proof.
  intros Hw; revert pxs; induction h as [|h IH]; intros pxs Hl.
  - rewrite Nat.mul_0_r in Hl; destruct pxs; [reflexivity|discriminate].
  - cbn [read_rows write_rows]; rewrite <- !app_assoc.
    assert (Hf : List.length (map Color_to_byte (firstn (Z.to_nat w) pxs)) = Z.to_nat w).
    { rewrite length_map, length_firstn; lia. }
    rewrite <- Hf at 1.
    rewrite (bind_ok _ _ _ _ _ (read_exact_app _ _)); cbv beta.
    rewrite (bind_ok _ _ _ ([10] ++ write_rows (Z.to_nat w) h (skipn (Z.to_nat w) pxs) ++ rest)
               (firstn (Z.to_nat w) pxs));
      [|rewrite colors_of_bytes_map; reflexivity].
    rewrite (bind_ok _ _ _ _ _ (read_exactly_app _ _)).
    rewrite (bind_ok _ _ _ _ _ (IH _ ltac:(rewrite length_skipn, Hl, Nat.mul_succ_r; apply Nat.add_sub))).
    unfold ret; rewrite firstn_skipn; reflexivity.
Qed.

Lemma Image_read_write (img : Image) (rest : list Z) :
  0 <= width img -> 0 <= height img ->
  List.length (pixels img) = (Z.to_nat (width img) * Z.to_nat (height img))%nat ->
  Image_read (width img) (height img) (Image_write img ++ rest)
  = Ok (mkImage (width img) (height img) (pixels img) [] [], rest).
Proof.
  intros Hw Hh Hl; unfold Image_read, Image_write.
  rewrite (bind_ok _ _ _ _ _ (read_rows_write _ _ _ _ Hw Hl)); reflexivity.
Qed.

(** *** Images of a collection read back *)

Lemma read_tag_write (flags : Z) (tags : bool) (img : Image) (s : list Z) :
  flag_set flags FLAG_STRING_TAGS = tags ->
  (tags = false -> tag img = []) ->
  Forall (fun c => char_from_u32_ok c = true) (tag img) ->
  read_tag flags
    ((if tags then [34] ++ flat_map escape_default (tag img) ++ [34; 10] else []) ++ s)
  = Ok (tag img, s).
Proof.
  intros Hf Ht Hv; unfold read_tag; rewrite Hf; destruct tags.
  - rewrite <- !app_assoc; cbn [app].
    change (34 :: ?l) with ([34] ++ l) at 1.
    rewrite (bind_ok _ _ _ _ _ (read_quoted_string_tag _ _ Hv)).
    change (10 :: ?l) with ([10] ++ l).
    rewrite (bind_ok _ _ _ _ _ (read_exactly_app _ _)); reflexivity.
  - rewrite Ht; reflexivity.
Qed.

Lemma read_metadata_write (flags : Z) (md : bool) (img : Image) (s : list Z) :
  flag_set flags FLAG_METADATA_INTS = md ->
  (md = false -> metadata img = []) ->
  Forall is_i16 (metadata img) ->
  read_metadata flags
    ((if md then bs "[" ++ intercalate_comma (map fmt_i16 (metadata img)) ++ bs "]" ++ [10]
      else []) ++ s)
  = Ok (metadata img, s).
Proof.
  intros Hf Hm Hv; unfold read_metadata; rewrite Hf; destruct md.
  - rewrite <- !app_assoc.
    rewrite (bind_ok _ _ _ _ _ (read_list_of_i16s_metadata _ _ Hv)).
    rewrite (bind_ok _ _ _ _ _ (read_exactly_app _ _)); reflexivity.
  - rewrite Hm; reflexivity.
Qed.

Lemma read_image_size_write (flags gw gh : Z) (gs : option (Z * Z)) (img : Image)
      (s : list Z) :
  flag_set flags FLAG_INDIVIDUAL_DIMENSIONS = negb (isSome gs) ->
  (forall w h, gs = Some (w, h) -> gw = w /\ gh = h /\ width img = w /\ height img = h) ->
  0 <= width img <= 65535 -> 0 <= height img <= 65535 ->
  read_image_size flags gw gh
    ((if isSome gs then []
      else bs "w" ++ fmt_dec (width img) ++ bs " h" ++ fmt_dec (height img) ++ [10]) ++ s)
  = Ok ((width img, height img), s).
Proof.
  intros Hf Hg Hw Hh; unfold read_image_size; rewrite Hf.
  destruct gs as [[w h]|]; cbn [isSome negb].
  - destruct (Hg w h eq_refl) as (-> & -> & -> & ->); reflexivity.
  - rewrite <- !app_assoc.
    rewrite (bind_ok _ _ _ _ _ (read_exactly_app _ _)).
    change (bs " h") with ([32] ++ bs "h"); rewrite <- !app_assoc; cbn [app].
    rewrite (bind_ok _ _ _ _ _ (read_header_uint_fmt_dec 32 _ _ Hw eq_refl)).
    rewrite (bind_ok _ _ _ _ _ (read_exactly_app _ _)).
    rewrite (bind_ok _ _ _ _ _ (read_header_uint_fmt_dec 10 _ _ Hh eq_refl)).
    reflexivity.
Qed.

Lemma read_images_write (imgs : list Image) (rest : list Z) (flags gw gh : Z)
      (tags md : bool) (gs : option (Z * Z)) :
  Forall image_ok imgs ->
  flag_set flags FLAG_STRING_TAGS = tags ->
  flag_set flags FLAG_METADATA_INTS = md ->
  flag_set flags FLAG_INDIVIDUAL_DIMENSIONS = negb (isSome gs) ->
  (tags = false -> Forall (fun i => tag i = []) imgs) ->
  (md = false -> Forall (fun i => metadata i = []) imgs) ->
  (forall w h, gs = Some (w, h) ->
     gw = w /\ gh = h /\ Forall (fun i => width i = w /\ height i = h) imgs) ->
  read_images (List.length imgs) flags gw gh
    (flat_map (write_image tags md gs) imgs ++ rest) = Ok (imgs, rest).
Proof.
  intros Hok Ht Hm Hd Htags Hmd Hgs.
  induction imgs as [|img imgs IH]; [reflexivity|].
  apply Forall_cons_iff in Hok as [(Hw & Hh & Hl & Htg & Hmt) Hok].
  cbn [List.length read_images flat_map]; unfold write_image.
  rewrite <- !app_assoc.
  rewrite (bind_ok _ _ _ _ _ (read_exactly_app _ _)).
  rewrite (bind_ok _ _ _ _ _
             (read_tag_write flags tags img _ Ht (fun H => Forall_inv (Htags H)) Htg)).
  rewrite (bind_ok _ _ _ _ _
             (read_metadata_write flags md img _ Hm (fun H => Forall_inv (Hmd H)) Hmt)).
  assert (Hg1 : forall w h, gs = Some (w, h) ->
                gw = w /\ gh = h /\ width img = w /\ height img = h).
  { intros w h E; destruct (Hgs w h E) as (H1 & H2 & H3); apply Forall_inv in H3; tauto. }
  rewrite (bind_ok _ _ _ _ _ (read_image_size_write flags gw gh gs img _ Hd Hg1 Hw Hh)).
  cbn [fst snd].
  rewrite (bind_ok _ _ _ _ _ (Image_read_write img _ ltac:(lia) ltac:(lia) Hl)).
  rewrite (bind_ok _ _ _ _ _
             (IH Hok (fun H => Forall_inv_tail (Htags H)) (fun H => Forall_inv_tail (Hmd H))
                 (fun w h E => let H := Hgs w h E in
                               conj (proj1 H) (conj (proj1 (proj2 H))
                                                    (Forall_inv_tail (proj2 (proj2 H))))))).
  unfold ret; destruct img; reflexivity.
Qed.

(** *** The whole collection read back *)

Lemma bind_ret {A B : Type} (a : A) (k : A -> reader B) (s : list Z) :
  bind (ret a) k s = k a s.
Proof. reflexivity. Qed.

Lemma bind_assoc {A B C : Type} (m : reader A) (f : A -> reader B) (g : B -> reader C)
      (s : list Z) :
  bind (bind m f) g s = bind m (fun a => bind (f a) g) s.
Proof. unfold bind; destruct (m s) as [[a s']| |]; reflexivity. Qed.

Ltac read_step H :=
  rewrite ?bind_assoc; erewrite bind_ok; [|apply H; try reflexivity; try lia].

Lemma read_palettes_part {A : Type} (ps : list Palette) (k : list Palette -> reader A)
      (s : list Z) :
  Forall palette_ok ps ->
  bind (if 0 <? Z.of_nat (List.length ps) then read_exactly [10] else ret tt)
       (fun _ => bind (read_palettes (Z.to_nat (Z.of_nat (List.length ps)))) k)
       ((if is_empty ps then [] else 10 :: flat_map Palette_write ps) ++ s)
  = k ps s.
Proof.
  intro Hps; rewrite Nat2Z.id; destruct ps as [|p ps'].
  - reflexivity.
  - replace (0 <? Z.of_nat (List.length (p :: ps'))) with true
      by (symmetry; apply Z.ltb_lt; simpl; lia).
    cbn [is_empty]; change (10 :: ?l) with ([10] ++ l); rewrite <- app_assoc.
    rewrite (bind_ok _ _ _ _ _ (read_exactly_app _ _)).
    rewrite (bind_ok _ _ _ _ _ (read_palettes_write _ _ Hps)); reflexivity.
Qed.

Lemma write_flags_set (c : Collection) :
  0 <= write_flags c < 16 /\
  flag_set (write_flags c) FLAG_INDIVIDUAL_DIMENSIONS = negb (isSome (global_size (images c))) /\
  flag_set (write_flags c) FLAG_STRING_TAGS = has_string_tags (images c) /\
  flag_set (write_flags c) FLAG_METADATA_INTS = has_metadata (images c).
Proof.
  unfold write_flags.
  destruct (isSome (global_size (images c))), (has_string_tags (images c)),
    (has_metadata (images c)); repeat split; vm_compute; try discriminate; reflexivity.
Qed.

Lemma no_string_tags (imgs : list Image) :
  has_string_tags imgs = false -> Forall (fun i => tag i = []) imgs.
Proof.
  unfold has_string_tags; induction imgs as [|i imgs IH]; intro H; constructor;
    cbn [existsb] in H; apply orb_false_iff in H as [H1 H2]; auto.
  destruct (tag i); [reflexivity|discriminate].
Qed.

Lemma no_metadata (imgs : list Image) :
  has_metadata imgs = false -> Forall (fun i => metadata i = []) imgs.
Proof.
  unfold has_metadata; induction imgs as [|i imgs IH]; intro H; constructor;
    cbn [existsb] in H; apply orb_false_iff in H as [H1 H2]; auto.
  destruct (metadata i); [reflexivity|discriminate].
Qed.

Lemma global_size_forall (imgs : list Image) (w h : Z) :
  global_size imgs = Some (w, h) -> Forall (fun i => width i = w /\ height i = h) imgs.
Proof.
  intro H; apply Forall_forall; intros i Hi; apply (global_size_some imgs w h H), Hi.
Qed.

Lemma Collection_read_write (c : Collection) (rest : list Z) :
  collection_ok c -> Collection_read (Collection_write c ++ rest) = Ok (c, rest).
Proof.
  intros (Hnp & Hni & Hps & His).
  unfold Collection_write, write_header, write_version.
  destruct (is_empty (palettes c) && isSome (global_size (images c))
            && negb (has_string_tags (images c)) && negb (has_metadata (images c))) eqn:Ev.
  - change (0 =? 0) with true; cbv iota.
    apply andb_true_iff in Ev as [Ev Emd]; apply andb_true_iff in Ev as [Ev Etg].
    apply andb_true_iff in Ev as [Ep Eg]; apply negb_true_iff in Emd, Etg.
    destruct c as [ps ims]; cbn [palettes images] in *.
    destruct ps; [|discriminate]; cbn [is_empty].
    destruct (global_size ims) as [[w h]|] eqn:Egs; [|discriminate].
    pose proof (global_size_forall _ _ _ Egs) as Hall.
    assert (Hwh : 0 <= w <= 65535 /\ 0 <= h <= 65535).
    { destruct ims as [|i ims']; [simpl in Egs; inversion Egs; lia|].
      apply Forall_inv in His, Hall; destruct His as (Hw & Hh & _); lia. }
    rewrite Etg, Emd.
    change (bs "ahi0 w") with (bs "ahi" ++ fmt_dec 0 ++ [32] ++ bs "w").
    change (bs " h") with ([32] ++ bs "h"); change (bs " n") with ([32] ++ bs "n").
    rewrite <- !app_assoc; cbn [app].
    unfold Collection_read.
    rewrite (bind_ok _ _ _ _ _ (read_exactly_app _ _)).
    rewrite (bind_ok _ _ _ _ _ (read_header_uint_fmt_dec 32 0 _ ltac:(lia) eq_refl)).
    change (0 =? 0) with true; change (0 =? 1) with false; cbn [negb andb].
    rewrite !bind_ret.
    unfold read_sizes; change (0 =? 0) with true; cbv iota.
    read_step read_exactly_app; read_step read_header_uint_fmt_dec.
    read_step read_exactly_app; read_step read_header_uint_fmt_dec.
    read_step read_exactly_app; read_step read_header_uint_fmt_dec.
    rewrite bind_ret; cbv beta iota zeta.
    change (0 <? 0) with false; cbv iota; rewrite bind_ret.
    change (Z.to_nat 0) with 0%nat; cbn [read_palettes]; rewrite bind_ret.
    rewrite Nat2Z.id.
    assert (Hg : forall w' h', Some (w, h) = Some (w', h') ->
                 w = w' /\ h = h' /\ Forall (fun i => width i = w' /\ height i = h') ims)
      by (intros w' h' E; inversion E; subst; auto).
    rewrite (bind_ok _ _ _ _ _
               (read_images_write ims rest 0 w h false false (Some (w, h)) His
                  eq_refl eq_refl eq_refl (fun _ => no_string_tags _ Etg)
                  (fun _ => no_metadata _ Emd) Hg)).
    reflexivity.
  - change (1 =? 0) with false; cbv iota.
    pose proof (write_flags_set c) as (Hfr & Fd & Ft & Fm).
    destruct c as [ps ims]; cbn [palettes images] in *.
    change (bs "ahi1 f") with (bs "ahi" ++ fmt_dec 1 ++ [32] ++ bs "f").
    change (bs " p") with ([32] ++ bs "p"); change (bs " i") with ([32] ++ bs "i").
    rewrite <- !app_assoc; cbn [app].
    unfold Collection_read.
    read_step read_exactly_app; read_step read_header_uint_fmt_dec.
    cbv beta; change (1 =? 0) with false; change (1 =? 1) with true; cbn [negb andb].
    read_step read_exactly_app; read_step read_hex_u32_fmt_X; cbv beta.
    read_step read_exactly_app; read_step read_header_uint_fmt_dec; cbv beta.
    unfold read_sizes; change (1 =? 0) with false; cbv iota.
    rewrite Fd.
    assert (Hg : forall w h, global_size ims = Some (w, h) ->
                 0 <= w <= 65535 /\ 0 <= h <= 65535 /\
                 Forall (fun i => width i = w /\ height i = h) ims).
    { intros w h Egs; pose proof (global_size_forall _ _ _ Egs) as Hall.
      split; [|split; [|exact Hall]];
        (destruct ims as [|i ims']; [simpl in Egs; inversion Egs; lia|]);
        apply Forall_inv in His, Hall; destruct His as (Hw & Hh & _); lia. }
    destruct (global_size ims) as [[w h]|] eqn:Egs; cbn [isSome negb].
    + destruct (Hg w h eq_refl) as (Hw & Hh & Hall).
      change (bs " w") with ([32] ++ bs "w"); change (bs " h") with ([32] ++ bs "h").
      rewrite <- !app_assoc; cbn [app].
      read_step read_exactly_app; read_step read_header_uint_fmt_dec.
      read_step read_exactly_app; read_step read_header_uint_fmt_dec.
      read_step read_exactly_app; read_step read_header_uint_fmt_dec.
      rewrite bind_ret; cbv beta iota zeta.
      rewrite read_palettes_part by exact Hps; cbv beta.
      rewrite Nat2Z.id.
      rewrite (bind_ok _ _ _ _ _
                 (read_images_write ims rest _ w h _ _ _ His Ft Fm Fd (no_string_tags ims)
                    (no_metadata ims)
                    (fun w' h' E => match E in _ = o return
                                      (match o with Some (w', h') =>
                                         w = w' /\ h = h' /\
                                         Forall (fun i => width i = w' /\ height i = h') ims
                                       | None => True end) with
                                    | eq_refl => conj eq_refl (conj eq_refl Hall) end))).
      reflexivity.
    + cbn [app].
      read_step read_exactly_app; read_step read_header_uint_fmt_dec.
      rewrite bind_ret; cbv beta iota zeta.
      rewrite read_palettes_part by exact Hps; cbv beta.
      rewrite Nat2Z.id.
      rewrite (bind_ok _ _ _ _ _
                 (read_images_write ims rest _ 0 0 _ _ None His Ft Fm Fd (no_string_tags ims)
                    (no_metadata ims) (fun w' h' E => ltac:(discriminate E)))).
      reflexivity.
Qed.

(** ** C1: a collection written by [Collection::write] reads back *)

(** C1 counterexample. Two collections that do not round-trip: a palette
    whose slots have alpha 0 but a nonzero color reads back with those slots
    zeroed, and an image 65536 pixels wide is written in a header that
    [Collection::read] refuses. *)
Lemma Collection_roundtrip_counterexample :
  let c1 := mkCollection [mkPalette (repeat (255, 0, 0, 0) 16)] [] in
  let c2 := mkCollection [] [mkImage 65536 0 [] [] []] in
  Collection_read (Collection_write c1)
    = Ok (mkCollection [mkPalette (repeat (0, 0, 0, 0) 16)] [], []) /\
  Collection_read (Collection_write c1) <> Ok (c1, []) /\
  Collection_read (Collection_write c2) = Err ValueTooLarge.
Proof.
  vm_compute; split; [reflexivity|split; [congruence|reflexivity]].
Qed.

(** C1 (corrected), with [Image::read] and [Image::write] modelled from the
    spec: every collection that the format can carry ([collection_ok]: at
    most 65535 palettes and 65535 images; palettes of 16 byte slots whose
    alpha-0 slots are all zero; images at most 65535 wide and high with
    width * height pixels, tags of Unicode scalar values and metadata in the
    i16 range), in any combination of sizes, tags, metadata and palettes, is
    read back by [Collection::read] from the bytes [Collection::write]
    produces, with nothing left over. *)
Theorem Collection_write_read (c : Collection) :
  collection_ok c -> Collection_read (Collection_write c) = Ok (c, []).
Proof.
  intro H; rewrite <- (app_nil_r (Collection_write c)).
  apply Collection_read_write, H.
Qed.

Lemma Collection_write_read_witness :
  collection_ok (mkCollection [mkPalette (repeat (0, 0, 0, 255) 16)]
                   [mkImage 1 1 [Red] [65] [-3]; mkImage 2 1 [Blue; Red] [] []]) /\
  Collection_read (Collection_write
    (mkCollection [mkPalette (repeat (0, 0, 0, 255) 16)]
       [mkImage 1 1 [Red] [65] [-3]; mkImage 2 1 [Blue; Red] [] []]))
  = Ok (mkCollection [mkPalette (repeat (0, 0, 0, 255) 16)]
          [mkImage 1 1 [Red] [65] [-3]; mkImage 2 1 [Blue; Red] [] []], []).
Proof.
  assert (H : collection_ok (mkCollection [mkPalette (repeat (0, 0, 0, 255) 16)]
                [mkImage 1 1 [Red] [65] [-3]; mkImage 2 1 [Blue; Red] [] []])).
  { unfold collection_ok, palette_ok, image_ok, slot_ok, is_i16; cbn -[Z.le Z.lt].
    repeat (match goal with
            | |- _ /\ _ => split
            | |- Forall _ _ => constructor
            | |- _ \/ _ => left
            end; cbv beta iota; cbn [width height pixels tag metadata]);
      try lia; reflexivity. }
  split; [exact H|apply Collection_write_read, H].
Defined.

(** ** More of the code: image.rs, lib.rs, util.rs and palette.rs *)

Section ImageLemmas.
Import ImageRs.

Lemma u32_id (z : Z) : 0 <= z < 2 ^ 32 -> u32 z = z.
Proof. intro H; unfold u32; apply Z.mod_small, H. Qed.

Lemma index_wf (img : Image) (c r : Z) :
  wf_image img -> 0 <= c < width img -> 0 <= r < height img ->
  index img c r = nth_error (pixels img) (Z.to_nat (r * width img + c)).
Proof.
  intros (Hw & Hh & Hwh & Hl) Hc Hr; unfold index.
  destruct (Z.leb_spec (width img) c); [lia|].
  destruct (Z.leb_spec (height img) r); [lia|]; cbn [orb].
  assert (r * width img + c < width img * height img) by nia.
  rewrite (u32_id (r * width img)) by nia; rewrite u32_id by nia; reflexivity.
Qed.

Lemma index_out (img : Image) (c r : Z) :
  ~ (c < width img /\ r < height img) -> index img c r = None.
Proof.
  intro H; unfold index.
  destruct (Z.leb_spec (width img) c); [reflexivity|].
  destruct (Z.leb_spec (height img) r); [reflexivity|lia].
Qed.

Lemma image_ext (a b : Image) :
  wf_image a -> wf_image b -> width a = width b -> height a = height b ->
  (forall c r, 0 <= c < width a -> 0 <= r < height a -> index a c r = index b c r) ->
  a = b.
Proof.
  intros Ha Hb Ew Eh H.
  assert (Ep : pixels a = pixels b).
  { apply nth_error_ext; intro k.
    destruct Ha as (Hw & Hh & Hwh & Hl); destruct Hb as (Hw' & Hh' & Hwh' & Hl').
    destruct (Nat.lt_ge_cases k (List.length (pixels a))) as [Hk|Hk].
    - assert (Hw0 : 0 < width a) by nia.
      set (c := Z.of_nat k mod width a); set (r := Z.of_nat k / width a).
      assert (Hkz : Z.of_nat k = r * width a + c)
        by (unfold c, r; rewrite Z.mul_comm; apply Z.div_mod; lia).
      assert (Hc : 0 <= c < width a) by (apply Z.mod_pos_bound; lia).
      assert (Hr : 0 <= r < height a).
      { unfold r; split; [apply Z.div_pos; lia|apply Z.div_lt_upper_bound; lia]. }
      specialize (H c r Hc Hr).
      rewrite !index_wf in H; try (split; [|split; [|split]]; assumption); try lia.
      rewrite <- Ew, <- Hkz, Nat2Z.id in H; exact H.
    - rewrite (proj2 (nth_error_None _ _) Hk).
      symmetry; apply nth_error_None; lia. }
  destruct a, b; cbn in *; subst; reflexivity.
Qed.

Lemma traverse_nth {A B : Type} (f : A -> option B) (l : list A) :
  (forall x, In x l -> f x <> None) ->
  exists l', traverse f l = Some l' /\ List.length l' = List.length l /\
    forall k x, nth_error l k = Some x -> nth_error l' k = f x.
Proof.
  induction l as [|a l IH]; intro H.
  - exists []; repeat split; intros [|k] x E; discriminate.
  - destruct (f a) as [b|] eqn:Ea; [|exfalso; apply (H a); [left; reflexivity|exact Ea]].
    destruct IH as (l' & E & Hlen & Hn); [intros x Hx; apply H; right; exact Hx|].
    exists (b :: l'); cbn; rewrite Ea, E; repeat split; [cbn; lia|].
    intros [|k] x Ex; cbn in *; [injection Ex as <-; symmetry; exact Ea|apply Hn, Ex].
Qed.

Lemma range_0 (n : Z) : range 0 n = map Z.of_nat (seq 0 (Z.to_nat n)).
Proof. unfold range; rewrite Z.sub_0_r; apply map_ext; intro; lia. Qed.

Lemma grid_nth (g : nat -> nat -> Z) (rows cols : nat) (s r c : nat) :
  (r < rows)%nat -> (c < cols)%nat ->
  nth_error (flat_map (fun row => map (g row) (seq 0 cols)) (seq s rows)) (r * cols + c)
  = Some (g (s + r)%nat c).
Proof.
  revert s r; induction rows as [|rows IH]; intros s r Hr Hc; [lia|].
  cbn [seq flat_map].
  destruct r as [|r].
  - change (0 * cols + c)%nat with c.
    rewrite nth_error_app1 by (rewrite length_map, length_seq; lia).
    rewrite nth_error_map, nth_error_seq.
    destruct (Nat.ltb_spec c cols); [|lia]; cbn; rewrite Nat.add_0_r; reflexivity.
  - rewrite Nat.mul_succ_l.
    rewrite nth_error_app2 by (rewrite length_map, length_seq; lia).
    rewrite length_map, length_seq.
    replace (r * cols + cols + c - cols)%nat with (r * cols + c)%nat by lia.
    rewrite IH by lia; f_equal; f_equal; lia.
Qed.

Lemma grid_length (g : nat -> nat -> Z) (rows cols s : nat) :
  List.length (flat_map (fun row => map (g row) (seq 0 cols)) (seq s rows)) = (rows * cols)%nat.
Proof.
  revert s; induction rows as [|rows IH]; intro s; [reflexivity|].
  cbn [seq flat_map]; rewrite length_app, length_map, length_seq, IH; lia.
Qed.

Lemma grid_in (g : nat -> nat -> Z) (rows cols s : nat) (x : Z) :
  In x (flat_map (fun row => map (g row) (seq 0 cols)) (seq s rows)) ->
  exists r c, (s <= r < s + rows)%nat /\ (c < cols)%nat /\ x = g r c.
Proof.
  intro H; apply in_flat_map in H as (r & Hr & Hx).
  apply in_map_iff in Hx as (c & <- & Hc).
  apply in_seq in Hr, Hc; exists r, c; repeat split; lia.
Qed.

Lemma grid_Z (f : Z -> Z -> Z) (rows cols : Z) :
  flat_map (fun row => map (f row) (range 0 cols)) (range 0 rows)
  = flat_map (fun row => map (fun col => f (Z.of_nat row) (Z.of_nat col)) (seq 0 (Z.to_nat cols)))
             (seq 0 (Z.to_nat rows)).
Proof.
  rewrite !range_0.
  induction (seq 0 (Z.to_nat rows)) as [|r l IH]; [reflexivity|].
  cbn [map flat_map]; rewrite IH, map_map; reflexivity.
Qed.

Lemma gather_spec (img : Image) (rows cols : Z) (f : Z -> Z -> Z) :
  0 <= rows -> 0 <= cols ->
  (forall r c, 0 <= r < rows -> 0 <= c < cols ->
     0 <= f r c < Z.of_nat (List.length (pixels img))) ->
  exists l, gather img rows cols f = Some l /\
    Z.of_nat (List.length l) = rows * cols /\
    forall r c, 0 <= r < rows -> 0 <= c < cols ->
      nth_error l (Z.to_nat (r * cols + c)) = nth_error (pixels img) (Z.to_nat (f r c)).
Proof.
  intros Hr Hc Hf; unfold gather; rewrite grid_Z.
  set (g := fun row col : nat => f (Z.of_nat row) (Z.of_nat col)).
  destruct (traverse_nth (fun k => nth_error (pixels img) (Z.to_nat k))
              (flat_map (fun row => map (g row) (seq 0 (Z.to_nat cols))) (seq 0 (Z.to_nat rows))))
    as (l & E & Hlen & Hn).
  { intros x Hx; apply grid_in in Hx as (r & c & Hr' & Hc' & ->).
    apply nth_error_Some; unfold g; specialize (Hf (Z.of_nat r) (Z.of_nat c)); lia. }
  exists l; split; [exact E|split].
  - rewrite Hlen, grid_length; lia.
  - intros r c Hr' Hc'.
    replace (Z.to_nat (r * cols + c)) with (Z.to_nat r * Z.to_nat cols + Z.to_nat c)%nat by lia.
    rewrite (Hn _ (g (Z.to_nat r) (Z.to_nat c))); [unfold g; rewrite !Z2Nat.id by lia; reflexivity|].
    rewrite grid_nth by lia; reflexivity.
Qed.

End ImageLemmas.


Section Transforms.
Import ImageRs.

Lemma gather_image (img : Image) (R C : Z) (f gc gr : Z -> Z -> Z) :
  wf_image img -> 0 <= R < 2 ^ 32 -> 0 <= C < 2 ^ 32 -> C * R = width img * height img ->
  (forall r c, 0 <= r < R -> 0 <= c < C ->
     0 <= gc r c < width img /\ 0 <= gr r c < height img /\
     f r c = gr r c * width img + gc r c) ->
  exists l, gather img R C f = Some l /\ wf_image (mkImage C R l) /\
    forall c r, 0 <= c < C -> 0 <= r < R ->
      index (mkImage C R l) c r = index img (gc r c) (gr r c).
Proof.
  intros Hwf HR HC Hsz Hg.
  destruct (gather_spec img R C f ltac:(lia) ltac:(lia)) as (l & E & Hl & Hn).
  { intros r c Hr Hc; destruct (Hg r c Hr Hc) as (H1 & H2 & ->).
    destruct Hwf as (_ & _ & _ & ->); nia. }
  exists l; split; [exact E|split].
  - destruct Hwf as (Hw & Hh & Hwh & _); unfold wf_image; cbn; repeat split; lia.
  - intros c r Hc Hr; destruct (Hg r c Hr Hc) as (H1 & H2 & H3).
    assert (Hwf' : wf_image (mkImage C R l))
      by (destruct Hwf as (Hw & Hh & Hwh & _); unfold wf_image; cbn; repeat split; lia).
    rewrite (index_wf (mkImage C R l)) by (first [exact Hwf' | cbn; lia]); cbn.
    rewrite (index_wf img) by (first [exact Hwf | lia]).
    rewrite Hn by lia; rewrite H3; reflexivity.
Qed.

Lemma flip_horz_index (img : Image) :
  wf_image img ->
  exists img', flip_horz img = Some img' /\ wf_image img' /\
    width img' = width img /\ height img' = height img /\
    forall c r, 0 <= c < width img -> 0 <= r < height img ->
      index img' c r = index img (width img - 1 - c) r.
Proof.
  intro Hwf; pose proof Hwf as (Hw & Hh & Hwh & _).
  destruct (gather_image img (height img) (width img)
              (fun row col => u32 (u32 (u32 (u32 (row * width img) + width img) - col) - 1))
              (fun r c => width img - 1 - c) (fun r c => r))
    as (l & E & Hwf' & Hi); try exact Hwf; try lia.
  { intros r c Hr Hc; repeat split; try lia.
    rewrite (u32_id (r * width img)) by nia.
    rewrite (u32_id (r * width img + width img)) by nia.
    rewrite (u32_id (r * width img + width img - c)) by nia.
    rewrite u32_id by nia; lia. }
  exists (mkImage (width img) (height img) l); unfold flip_horz; rewrite E.
  split; [reflexivity|split; [exact Hwf'|split; [reflexivity|split; [reflexivity|exact Hi]]]].
Qed.

Lemma flip_vert_index (img : Image) :
  wf_image img ->
  exists img', flip_vert img = Some img' /\ wf_image img' /\
    width img' = width img /\ height img' = height img /\
    forall c r, 0 <= c < width img -> 0 <= r < height img ->
      index img' c r = index img c (height img - 1 - r).
Proof.
  intro Hwf; pose proof Hwf as (Hw & Hh & Hwh & _).
  destruct (gather_image img (height img) (width img)
              (fun row col => u32 (u32 (u32 (u32 (height img - row) - 1) * width img) + col))
              (fun r c => c) (fun r c => height img - 1 - r))
    as (l & E & Hwf' & Hi); try exact Hwf; try lia.
  { intros r c Hr Hc; repeat split; try lia.
    rewrite (u32_id (height img - r)) by nia.
    rewrite (u32_id (height img - r - 1)) by nia.
    rewrite (u32_id ((height img - r - 1) * width img)) by nia.
    rewrite u32_id by nia; lia. }
  exists (mkImage (width img) (height img) l); unfold flip_vert; rewrite E.
  split; [reflexivity|split; [exact Hwf'|split; [reflexivity|split; [reflexivity|exact Hi]]]].
Qed.

Lemma rotate_cw_index (img : Image) :
  wf_image img ->
  exists img', rotate_cw img = Some img' /\ wf_image img' /\
    width img' = height img /\ height img' = width img /\
    forall c r, 0 <= c < height img -> 0 <= r < width img ->
      index img' c r = index img r (height img - 1 - c).
Proof.
  intro Hwf; pose proof Hwf as (Hw & Hh & Hwh & _).
  destruct (gather_image img (width img) (height img)
              (fun row col => u32 (u32 (width img * u32 (u32 (height img - col) - 1)) + row))
              (fun r c => r) (fun r c => height img - 1 - c))
    as (l & E & Hwf' & Hi); try exact Hwf; try lia.
  { intros r c Hr Hc; repeat split; try lia.
    rewrite (u32_id (height img - c)) by nia.
    rewrite (u32_id (height img - c - 1)) by nia.
    rewrite (u32_id (width img * (height img - c - 1))) by nia.
    rewrite u32_id by nia; lia. }
  exists (mkImage (height img) (width img) l); unfold rotate_cw; rewrite E.
  split; [reflexivity|split; [exact Hwf'|split; [reflexivity|split; [reflexivity|exact Hi]]]].
Qed.

Lemma rotate_ccw_index (img : Image) :
  wf_image img ->
  exists img', rotate_ccw img = Some img' /\ wf_image img' /\
    width img' = height img /\ height img' = width img /\
    forall c r, 0 <= c < height img -> 0 <= r < width img ->
      index img' c r = index img (width img - 1 - r) c.
Proof.
  intro Hwf; pose proof Hwf as (Hw & Hh & Hwh & _).
  destruct (gather_image img (width img) (height img)
              (fun row col => u32 (u32 (width img * col) + u32 (u32 (width img - row) - 1)))
              (fun r c => width img - 1 - r) (fun r c => c))
    as (l & E & Hwf' & Hi); try exact Hwf; try lia.
  { intros r c Hr Hc; repeat split; try lia.
    rewrite (u32_id (width img * c)) by nia.
    rewrite (u32_id (width img - r)) by nia.
    rewrite (u32_id (width img - r - 1)) by nia.
    rewrite u32_id by nia; lia. }
  exists (mkImage (height img) (width img) l); unfold rotate_ccw; rewrite E.
  split; [reflexivity|split; [exact Hwf'|split; [reflexivity|split; [reflexivity|exact Hi]]]].
Qed.

End Transforms.


Section Pixels.
Import ImageRs.

Lemma offset_inj (w c r c' r' : Z) :
  0 <= c < w -> 0 <= c' < w -> 0 <= r -> 0 <= r' -> r * w + c = r' * w + c' ->
  c = c' /\ r = r'.
Proof.
  intros Hc Hc' Hr Hr' E.
  assert (r = r').
  { destruct (Z.lt_trichotomy r r') as [H|[H|H]]; [|exact H|]; exfalso.
    - assert ((r + 1) * w <= r' * w) by (apply Z.mul_le_mono_nonneg_r; lia); lia.
    - assert ((r' + 1) * w <= r * w) by (apply Z.mul_le_mono_nonneg_r; lia); lia. }
  subst; lia.
Qed.

Lemma nth_error_update {A : Type} (l : list A) (n k : nat) (v : A) :
  (n < List.length l)%nat ->
  nth_error (firstn n l ++ [v] ++ skipn (S n) l) k =
  if Nat.eqb k n then Some v else nth_error l k.
Proof.
  intro Hn.
  destruct (Nat.lt_total k n) as [Hk|[Hk|Hk]].
  - rewrite nth_error_app1 by (rewrite length_firstn; lia).
    rewrite nth_error_firstn; destruct (Nat.ltb_spec k n); [|lia].
    destruct (Nat.eqb_spec k n); [lia|reflexivity].
  - subst; rewrite nth_error_app2 by (rewrite length_firstn; lia).
    rewrite length_firstn, Nat.min_l, Nat.sub_diag, Nat.eqb_refl by lia; reflexivity.
  - rewrite nth_error_app2 by (rewrite length_firstn; lia).
    rewrite length_firstn, Nat.min_l by lia.
    change ([v] ++ skipn (S n) l) with (v :: skipn (S n) l).
    destruct (k - n)%nat as [|j] eqn:Ej; [lia|]; cbn [nth_error].
    rewrite nth_error_skipn; destruct (Nat.eqb_spec k n); [lia|].
    f_equal; lia.
Qed.

Lemma index_set_spec (img : Image) (c r : Z) (v : Color) :
  wf_image img -> 0 <= c < width img -> 0 <= r < height img ->
  exists img', index_set img c r v = Some img' /\ wf_image img' /\
    width img' = width img /\ height img' = height img /\
    forall c' r', 0 <= c' -> 0 <= r' ->
      index img' c' r' = if (c' =? c) && (r' =? r) then Some v else index img c' r'.
Proof.
  intros Hwf Hc Hr; pose proof Hwf as ((Hw & _) & (Hh & _) & Hwh & Hl).
  assert (Hoff : r * width img + c < width img * height img) by nia.
  unfold index_set.
  destruct (Z.leb_spec (width img) c); [lia|].
  destruct (Z.leb_spec (height img) r); [lia|]; cbn [orb].
  rewrite (u32_id (r * width img)) by nia; rewrite u32_id by nia.
  destruct (Nat.ltb_spec (Z.to_nat (r * width img + c)) (List.length (pixels img))); [|lia].
  eexists; split; [reflexivity|].
  set (img' := mkImage (width img) (height img) _).
  assert (Hwf' : wf_image img').
  { unfold wf_image, img'; cbn [pixels width height].
    rewrite !length_app, length_firstn, length_skipn; cbn [List.length].
    destruct Hwf as (Hwb & Hhb & _); repeat split; lia. }
  split; [exact Hwf'|split; [reflexivity|split; [reflexivity|]]].
  intros c' r' Hc' Hr'.
  destruct (Z.ltb_spec c' (width img)) as [Hcw|Hcw];
    [destruct (Z.ltb_spec r' (height img)) as [Hrh|Hrh]|].
  - rewrite (index_wf img') by (first [exact Hwf' | cbn; lia]).
    rewrite (index_wf img) by (first [exact Hwf | lia]).
    unfold img'; cbn [pixels width].
    rewrite nth_error_update by lia.
    destruct (Nat.eqb_spec (Z.to_nat (r' * width img + c')) (Z.to_nat (r * width img + c)))
      as [E|E].
    + apply Z2Nat.inj in E; try nia.
      destruct (offset_inj (width img) c' r' c r) as [-> ->]; try lia.
      rewrite !Z.eqb_refl; reflexivity.
    + destruct (Z.eqb_spec c' c); destruct (Z.eqb_spec r' r); subst; try reflexivity.
      contradiction.
  - rewrite !index_out by (cbn; lia).
    destruct (Z.eqb_spec r' r); [lia|]; rewrite andb_false_r; reflexivity.
  - rewrite !index_out by (cbn; lia).
    destruct (Z.eqb_spec c' c); [lia|]; reflexivity.
Qed.

Lemma new_wf (w h : Z) :
  0 <= w < 2 ^ 32 -> 0 <= h < 2 ^ 32 -> w * h < 2 ^ 32 ->
  wf_image (new w h) /\
  forall c r, 0 <= c < w -> 0 <= r < h -> index (new w h) c r = Some Transparent.
Proof.
  intros Hw Hh Hwh.
  assert (Hwf : wf_image (new w h)).
  { unfold wf_image, new; cbn; rewrite repeat_length, u32_id by lia; repeat split; lia. }
  split; [exact Hwf|]; intros c r Hc Hr.
  rewrite index_wf by (first [exact Hwf | cbn; lia]); cbn.
  rewrite nth_error_repeat; [reflexivity|].
  rewrite u32_id by lia; nia.
Qed.

End Pixels.

Section Fill.
Import ImageRs.

Lemma range_in (a b k : Z) : In k (range a b) <-> a <= k < b.
Proof.
  unfold range; rewrite in_map_iff; split.
  - intros (n & <- & Hn); apply in_seq in Hn; lia.
  - intro H; exists (Z.to_nat (k - a)); split; [lia|apply in_seq; lia].
Qed.

Lemma existsb_range (a b d x : Z) :
  existsb (fun k => x =? d + k) (range a b) = (d + a <=? x) && (x <? d + b).
Proof.
  destruct (existsb _ _) eqn:E.
  - apply existsb_exists in E as (k & Hk & Ek); apply range_in in Hk; apply Z.eqb_eq in Ek.
    symmetry; apply andb_true_iff; rewrite Z.leb_le, Z.ltb_lt; lia.
  - symmetry; apply not_true_iff_false; intro H; apply andb_true_iff in H as [H1 H2].
    apply Z.leb_le in H1; apply Z.ltb_lt in H2.
    apply not_true_iff_false in E; apply E, existsb_exists.
    exists (x - d); split; [apply range_in; lia|apply Z.eqb_eq; lia].
Qed.

Lemma fill_cols (cols : list Z) (row : Z) (color : Color) (img : Image) :
  wf_image img -> 0 <= row < height img -> (forall c, In c cols -> 0 <= c < width img) ->
  exists img', fold_left (fun o col => set_pixel o col row color) cols (Some img) = Some img' /\
    wf_image img' /\ width img' = width img /\ height img' = height img /\
    forall c' r', 0 <= c' -> 0 <= r' ->
      index img' c' r' =
      if (r' =? 0 + row) && existsb (fun k => c' =? 0 + k) cols then Some color
      else index img c' r'.
Proof.
  revert img; induction cols as [|c cols IH]; intros img Hwf Hr Hc.
  - exists img; split; [reflexivity|split; [exact Hwf|split; [reflexivity|split; [reflexivity|]]]].
    intros; cbn [existsb]; rewrite andb_false_r; reflexivity.
  - destruct (index_set_spec img c row color Hwf) as (img1 & E1 & Hwf1 & Hw1 & Hh1 & Hi1);
      [apply Hc; left; reflexivity|exact Hr|].
    cbn [fold_left]; unfold set_pixel at 2; rewrite E1.
    destruct (IH img1 Hwf1) as (img' & E & Hwf' & Hw' & Hh' & Hi');
      [lia|intros k Hk; rewrite Hw1; apply Hc; right; exact Hk|].
    exists img'; split; [exact E|split; [exact Hwf'|split; [lia|split; [lia|]]]].
    intros c' r' Hc' Hr'; rewrite Hi', Hi1 by assumption; cbn [existsb].
    change (0 + c) with c; change (0 + row) with row.
    destruct (Z.eqb_spec r' row); destruct (Z.eqb_spec c' c);
      destruct (existsb _ cols); reflexivity.
Qed.

Lemma fill_rows (rows cols : list Z) (color : Color) (img : Image) :
  wf_image img -> (forall r, In r rows -> 0 <= r < height img) ->
  (forall c, In c cols -> 0 <= c < width img) ->
  exists img',
    fold_left (fun o row => fold_left (fun o col => set_pixel o col row color) cols o)
              rows (Some img) = Some img' /\
    wf_image img' /\ width img' = width img /\ height img' = height img /\
    forall c' r', 0 <= c' -> 0 <= r' ->
      index img' c' r' =
      if existsb (fun k => r' =? 0 + k) rows && existsb (fun k => c' =? 0 + k) cols
      then Some color else index img c' r'.
Proof.
  revert img; induction rows as [|row rows IH]; intros img Hwf Hr Hc.
  - exists img; split; [reflexivity|split; [exact Hwf|split; [reflexivity|split; [reflexivity|]]]].
    intros; reflexivity.
  - destruct (fill_cols cols row color img Hwf) as (img1 & E1 & Hwf1 & Hw1 & Hh1 & Hi1);
      [apply Hr; left; reflexivity|exact Hc|].
    cbn [fold_left]; rewrite E1.
    destruct (IH img1 Hwf1) as (img' & E & Hwf' & Hw' & Hh' & Hi').
    { intros r Hr'; rewrite Hh1; apply Hr; right; exact Hr'. }
    { intros c Hc'; rewrite Hw1; apply Hc, Hc'. }
    exists img'; split; [exact E|split; [exact Hwf'|split; [lia|split; [lia|]]]].
    intros c' r' Hc' Hr'; rewrite Hi', Hi1 by assumption; cbn [existsb].
    destruct (r' =? 0 + row); destruct (existsb _ rows);
      destruct (existsb _ cols); reflexivity.
Qed.

Lemma i32_id (z : Z) : -2 ^ 31 <= z < 2 ^ 31 -> i32 z = z.
Proof.
  intro H; unfold i32; rewrite Z.mod_small; lia.
Qed.

End Fill.


Section Draw.
Import ImageRs.






Lemma fill_range (x w n c : Z) :
  0 <= w -> 0 <= c < n ->
  0 + Z.min (Z.max 0 x) n <= c < 0 + Z.min (Z.max 0 (x + w)) n <-> x <= c < x + w.
Proof. intros; lia. Qed.


Lemma range_bool (a b a' b' c : Z) :
  (a <= c < b <-> a' <= c < b') -> (a <=? c) && (c <? b) = (a' <=? c) && (c <? b').
Proof.
  intro H; apply eq_true_iff_eq; rewrite !andb_true_iff, !Z.leb_le, !Z.ltb_lt; exact H.
Qed.

(** [Image::fill_rect]: the pixels of the image inside the rectangle of
    [w] by [h] at [(x, y)] take the color; the others are
    kept, and a rectangle partly or wholly outside the image is clipped. *)
Theorem fill_rect_pixels (img : Image) (x y w h : Z) (color : Color) :
  wf_image img -> -2 ^ 31 <= x < 2 ^ 31 -> -2 ^ 31 <= y < 2 ^ 31 ->
  0 <= w < 2 ^ 31 -> 0 <= h < 2 ^ 31 -> x + w < 2 ^ 31 -> y + h < 2 ^ 31 ->
  exists img', fill_rect img x y w h color = Some img' /\ wf_image img' /\
    width img' = width img /\ height img' = height img /\
    forall c r, 0 <= c < width img -> 0 <= r < height img ->
      index img' c r =
      if (x <=? c) && (c <? x + w) && (y <=? r) && (r <? y + h) then Some color
      else index img c r.
Proof.
  intros Hwf Hx Hy Hw Hh Hxw Hyh; pose proof Hwf as ((Hw0 & Hw1) & (Hh0 & Hh1) & _).
  unfold fill_rect.
  rewrite (i32_id h), (i32_id (y + h)), (i32_id w), (i32_id (x + w)) by lia.
  destruct (fill_rows (range (Z.min (Z.max 0 y) (height img)) (Z.min (Z.max 0 (y + h)) (height img)))
              (range (Z.min (Z.max 0 x) (width img)) (Z.min (Z.max 0 (x + w)) (width img)))
              color img Hwf) as (img' & E & Hwf' & Hw' & Hh' & Hi').
  { intros r Hr; apply range_in in Hr; lia. }
  { intros c Hc; apply range_in in Hc; lia. }
  exists img'; split; [exact E|split; [exact Hwf'|split; [exact Hw'|split; [exact Hh'|]]]].
  intros c r Hc Hr; rewrite Hi' by lia; rewrite !existsb_range.
  assert (Ec : (0 + Z.min (Z.max 0 x) (width img) <=? c) &&
               (c <? 0 + Z.min (Z.max 0 (x + w)) (width img)) = (x <=? c) && (c <? x + w))
    by (apply range_bool, fill_range; lia).
  assert (Er : (0 + Z.min (Z.max 0 y) (height img) <=? r) &&
               (r <? 0 + Z.min (Z.max 0 (y + h)) (height img)) = (y <=? r) && (r <? y + h))
    by (apply range_bool, fill_range; lia).
  rewrite Ec, Er.
  destruct (x <=? c), (c <? x + w), (y <=? r), (r <? y + h); reflexivity.
Qed.



End Draw.


Section ReadWriteAll.
Import ImageRs.

Lemma traverse_ext_in {A B : Type} (f g : A -> option B) (l : list A) :
  (forall x, In x l -> f x = g x) -> traverse f l = traverse g l.
Proof.
  induction l as [|a l IH]; intro H; [reflexivity|]; cbn [traverse].
  rewrite (H a (or_introl eq_refl)), IH by (intros x Hx; apply H; right; exact Hx).
  reflexivity.
Qed.

Lemma traverse_some {A B : Type} (F : A -> B) (l : list A) :
  traverse (fun x => Some (F x)) l = Some (map F l).
Proof. induction l as [|a l IH]; [reflexivity|]; cbn; rewrite IH; reflexivity. Qed.

Lemma traverse_map {A B C : Type} (f : B -> option C) (g : A -> B) (l : list A) :
  traverse f (map g l) = traverse (fun x => f (g x)) l.
Proof. induction l as [|a l IH]; [reflexivity|]; cbn; rewrite IH; reflexivity. Qed.

Lemma skipn_cons_nth {A : Type} (l : list A) (k : nat) :
  (k < List.length l)%nat ->
  exists x, nth_error l k = Some x /\ skipn k l = x :: skipn (S k) l.
Proof.
  revert k; induction l as [|a l IH]; intros k Hk; [cbn in Hk; lia|].
  destruct k as [|k]; [exists a; split; reflexivity|].
  cbn in Hk |- *; apply IH; lia.
Qed.

Lemma traverse_nth_seq {A : Type} (l : list A) (k j n : nat) :
  (k + j + n <= List.length l)%nat ->
  traverse (fun i => nth_error l (k + i)) (seq j n) = Some (firstn n (skipn (k + j) l)).
Proof.
  revert j; induction n as [|n IH]; intros j Hj; [reflexivity|].
  destruct (skipn_cons_nth l (k + j) ltac:(lia)) as (x & Ex & Es).
  cbn [seq traverse]; rewrite Ex, IH by lia; rewrite Es.
  replace (k + S j)%nat with (S (k + j)) by lia; reflexivity.
Qed.

Lemma concat_rows (l : list Color) (w : nat) (n s : nat) :
  List.concat (map (fun row => map Color_to_byte (firstn w (skipn (row * w) l)) ++ [10])
                   (seq s n))
  = write_rows w n (skipn (s * w) l).
Proof.
  revert s; induction n as [|n IH]; intro s; [reflexivity|].
  cbn [seq map List.concat write_rows]; rewrite IH, skipn_skipn, <- app_assoc.
  replace (w + s * w)%nat with (S s * w)%nat by lia; reflexivity.
Qed.

Lemma write_grid_rows (img : Image) :
  wf_image img ->
  write_grid img (width img) (height img)
  = Some (write_rows (Z.to_nat (width img)) (Z.to_nat (height img)) (pixels img)).
Proof.
  intro Hwf; pose proof Hwf as ((Hw0 & Hw1) & (Hh0 & Hh1) & Hwh & Hl).
  set (w := width img) in *; set (h := height img) in *.
  unfold write_grid.
  set (rowf := fun row : nat =>
                 map Color_to_byte (firstn (Z.to_nat w) (skipn (row * Z.to_nat w) (pixels img)))
                 ++ [10]).
  rewrite (traverse_ext_in _ (fun row => Some (rowf (Z.to_nat row)))).
  2:{ intros row Hrow; apply range_in in Hrow.
      rewrite range_0, traverse_map.
      rewrite (traverse_ext_in _ (fun i => nth_error (pixels img) (Z.to_nat row * Z.to_nat w + i))).
      2:{ intros i Hi; apply in_seq in Hi.
          rewrite (u32_id (row * w)) by nia; rewrite u32_id by nia; f_equal; nia. }
      rewrite traverse_nth_seq by nia.
      rewrite Nat.add_0_r; reflexivity. }
  rewrite traverse_some, range_0, map_map.
  rewrite (map_ext _ rowf) by (intro; rewrite Nat2Z.id; reflexivity).
  unfold rowf; rewrite concat_rows; reflexivity.
Qed.

Lemma write_images_app (w h : Z) (imgs more : list Image) (out : list Z) :
  Forall (sized w h) imgs ->
  write_images w h (imgs ++ more) out
  = write_images w h more
      (out ++ flat_map (fun i => [10] ++ write_rows (Z.to_nat w) (Z.to_nat h) (pixels i)) imgs).
Proof.
  revert out; induction imgs as [|i imgs IH]; intros out H; [rewrite app_nil_r; reflexivity|].
  apply Forall_cons_iff in H as [(Ew & Eh & Hwf) H].
  cbn [write_images flat_map app]; rewrite Ew, Eh, !Z.eqb_refl; cbn [negb orb].
  rewrite <- Ew, <- Eh at 1; rewrite write_grid_rows by exact Hwf.
  rewrite IH by exact H; rewrite Ew, Eh, <- !app_assoc; reflexivity.
Qed.

Lemma write_images_ok (w h : Z) (imgs : list Image) (out : list Z) :
  Forall (sized w h) imgs ->
  write_images w h imgs out
  = Written (out ++ flat_map (fun i => [10] ++ write_rows (Z.to_nat w) (Z.to_nat h) (pixels i))
                             imgs).
Proof.
  intro H; rewrite <- (app_nil_r imgs), write_images_app by exact H.
  rewrite app_nil_r; reflexivity.
Qed.

Lemma read_all_images_write (w h : Z) (imgs : list Image) (rest : list Z) :
  Forall (sized w h) imgs ->
  read_all_images (List.length imgs) w h
    (flat_map (fun i => [10] ++ write_rows (Z.to_nat w) (Z.to_nat h) (pixels i)) imgs ++ rest)
  = Ok (imgs, rest).
Proof.
  induction imgs as [|i imgs IH]; intro H; [reflexivity|].
  apply Forall_cons_iff in H as [(Ew & Eh & Hwf) H].
  pose proof Hwf as ((Hw0 & _) & (Hh0 & _) & _ & Hl).
  cbn [List.length read_all_images flat_map]; rewrite <- !app_assoc.
  read_step read_exactly_app.
  rewrite ?bind_assoc; erewrite bind_ok; [|apply read_rows_write; subst; nia].
  read_step (IH H).
  unfold ret; destruct i as [iw ih ip]; cbn in Ew, Eh; subst; reflexivity.
Qed.

Lemma read_all_write (w h : Z) (imgs : list Image) (rest : list Z) :
  0 <= w <= 65535 -> 0 <= h <= 65535 -> Z.of_nat (List.length imgs) <= 65535 ->
  Forall (sized w h) imgs ->
  read_all (bs "ahi0 w" ++ fmt_dec w ++ bs " h" ++ fmt_dec h ++ bs " n"
              ++ fmt_dec (Z.of_nat (List.length imgs)) ++ [10]
              ++ flat_map (fun i => [10] ++ write_rows (Z.to_nat w) (Z.to_nat h) (pixels i))
                          imgs ++ rest)
  = Ok (imgs, rest).
Proof.
  intros Hw Hh Hn H.
  change (bs "ahi0 w") with (bs "ahi" ++ fmt_dec 0 ++ [32] ++ bs "w").
  change (bs " h") with ([32] ++ bs "h"); change (bs " n") with ([32] ++ bs "n").
  rewrite <- !app_assoc; cbn [app].
  unfold read_all.
  read_step read_exactly_app; read_step read_header_uint_fmt_dec.
  change (negb (0 =? 0)) with false; cbv iota.
  read_step read_exactly_app; read_step read_header_uint_fmt_dec.
  read_step read_exactly_app; read_step read_header_uint_fmt_dec.
  read_step read_exactly_app; read_step read_header_uint_fmt_dec.
  rewrite Nat2Z.id; apply read_all_images_write, H.
Qed.

End ReadWriteAll.


Section ImageExtras.
Import ImageRs.

(** [Image::flip_horz] mirrors each row, and flipping twice gives the image back. *)
Theorem flip_horz_mirror (img : Image) :
  wf_image img ->
  exists img', flip_horz img = Some img' /\
    width img' = width img /\ height img' = height img /\
    (forall c r, 0 <= c < width img -> 0 <= r < height img ->
       index img' c r = index img (width img - 1 - c) r) /\
    flip_horz img' = Some img.
Proof.
  intro Hwf.
  destruct (flip_horz_index img Hwf) as (img1 & E1 & W1 & Hw1 & Hh1 & Hi1).
  destruct (flip_horz_index img1 W1) as (img2 & E2 & W2 & Hw2 & Hh2 & Hi2).
  exists img1; split; [exact E1|split; [exact Hw1|split; [exact Hh1|split; [exact Hi1|]]]].
  rewrite E2; f_equal; apply image_ext; try assumption; try lia.
  intros c r Hc Hr; rewrite Hi2 by lia; rewrite Hi1 by lia.
  f_equal; lia.
Qed.

(** [Image::flip_vert] mirrors each column, and flipping twice gives the image back. *)
Theorem flip_vert_mirror (img : Image) :
  wf_image img ->
  exists img', flip_vert img = Some img' /\
    width img' = width img /\ height img' = height img /\
    (forall c r, 0 <= c < width img -> 0 <= r < height img ->
       index img' c r = index img c (height img - 1 - r)) /\
    flip_vert img' = Some img.
Proof.
  intro Hwf.
  destruct (flip_vert_index img Hwf) as (img1 & E1 & W1 & Hw1 & Hh1 & Hi1).
  destruct (flip_vert_index img1 W1) as (img2 & E2 & W2 & Hw2 & Hh2 & Hi2).
  exists img1; split; [exact E1|split; [exact Hw1|split; [exact Hh1|split; [exact Hi1|]]]].
  rewrite E2; f_equal; apply image_ext; try assumption; try lia.
  intros c r Hc Hr; rewrite Hi2 by lia; rewrite Hi1 by lia.
  f_equal; lia.
Qed.

(** [Image::rotate_cw] swaps the dimensions and moves pixel [(col, row)] of
    the result from [(row, height - 1 - col)]; [rotate_ccw] undoes it. *)
Theorem rotate_cw_pixels (img : Image) :
  wf_image img ->
  exists img', rotate_cw img = Some img' /\
    width img' = height img /\ height img' = width img /\
    (forall c r, 0 <= c < height img -> 0 <= r < width img ->
       index img' c r = index img r (height img - 1 - c)) /\
    rotate_ccw img' = Some img.
Proof.
  intro Hwf.
  destruct (rotate_cw_index img Hwf) as (img1 & E1 & W1 & Hw1 & Hh1 & Hi1).
  destruct (rotate_ccw_index img1 W1) as (img2 & E2 & W2 & Hw2 & Hh2 & Hi2).
  exists img1; split; [exact E1|split; [exact Hw1|split; [exact Hh1|split; [exact Hi1|]]]].
  rewrite E2; f_equal; apply image_ext; try assumption; try lia.
  intros c r Hc Hr; rewrite Hi2 by lia; rewrite Hi1 by lia.
  f_equal; lia.
Qed.

(** [Image::rotate_ccw] swaps the dimensions and moves pixel [(col, row)] of
    the result from [(width - 1 - row, col)]; [rotate_cw] undoes it. *)
Theorem rotate_ccw_pixels (img : Image) :
  wf_image img ->
  exists img', rotate_ccw img = Some img' /\
    width img' = height img /\ height img' = width img /\
    (forall c r, 0 <= c < height img -> 0 <= r < width img ->
       index img' c r = index img (width img - 1 - r) c) /\
    rotate_cw img' = Some img.
Proof.
  intro Hwf.
  destruct (rotate_ccw_index img Hwf) as (img1 & E1 & W1 & Hw1 & Hh1 & Hi1).
  destruct (rotate_cw_index img1 W1) as (img2 & E2 & W2 & Hw2 & Hh2 & Hi2).
  exists img1; split; [exact E1|split; [exact Hw1|split; [exact Hh1|split; [exact Hi1|]]]].
  rewrite E2; f_equal; apply image_ext; try assumption; try lia.
  intros c r Hc Hr; rewrite Hi2 by lia; rewrite Hi1 by lia.
  f_equal; lia.
Qed.

(** [img[(col, row)] = v] inside the image: reading [(col, row)] back gives
    [v], and every other pixel is unchanged. *)
Theorem index_set_get (img : Image) (c r : Z) (v : Color) :
  wf_image img -> 0 <= c < width img -> 0 <= r < height img ->
  exists img', index_set img c r v = Some img' /\ wf_image img' /\
    width img' = width img /\ height img' = height img /\
    index img' c r = Some v /\
    forall c' r', 0 <= c' -> 0 <= r' -> (c', r') <> (c, r) -> index img' c' r' = index img c' r'.
Proof.
  intros Hwf Hc Hr.
  destruct (index_set_spec img c r v Hwf Hc Hr) as (img' & E & W & Hw & Hh & Hi).
  exists img'; split; [exact E|split; [exact W|split; [exact Hw|split; [exact Hh|split]]]].
  - rewrite Hi by lia; rewrite !Z.eqb_refl; reflexivity.
  - intros c' r' Hc' Hr' Hne; rewrite Hi by assumption.
    destruct (Z.eqb_spec c' c), (Z.eqb_spec r' r); subst; try reflexivity.
    contradiction.
Qed.


(** [Image::clear] gives the image [Image::new] makes at the same size:
    every pixel transparent. *)
Theorem clear_is_new (img : Image) :
  wf_image img ->
  clear img = new (width img) (height img) /\
  forall c r, 0 <= c < width img -> 0 <= r < height img -> index (clear img) c r = Some Transparent.
Proof.
  intro Hwf; pose proof Hwf as (Hw & Hh & Hwh & Hl).
  assert (E : clear img = new (width img) (height img)).
  { unfold clear, new; rewrite u32_id by nia; do 2 f_equal; lia. }
  split; [exact E|]; rewrite E; apply new_wf; lia.
Qed.


(** [Image::rgba_data] with [DEFAULT_PALETTE] is lib.rs's [rgba_data]
    (by [Color::rgba]): four bytes per pixel, in pixel order. *)
Theorem rgba_data_default (img : Image) :
  ImageRs.rgba_data img DEFAULT_PALETTE = Lib.rgba_data img /\
  List.length (Lib.rgba_data img) = (4 * List.length (pixels img))%nat.
Proof.
  unfold ImageRs.rgba_data, Lib.rgba_data.
  induction (pixels img) as [|p ps [IH1 IH2]]; [split; reflexivity|].
  cbn [flat_map]; rewrite IH1, length_app, IH2.
  destruct p; split; try reflexivity; cbn [List.length Lib.Color_rgba]; lia.
Qed.

(** [Image::write_all] then [Image::read_all] gives the images back, for
    images of one size whose header numbers fit in [u16]. *)
Theorem write_all_read_all (imgs : list Image) (w h : Z) (rest : list Z) :
  0 <= w <= 65535 -> 0 <= h <= 65535 -> Z.of_nat (List.length imgs) <= 65535 ->
  Forall (fun i => width i = w /\ height i = h /\
                   Z.of_nat (List.length (pixels i)) = w * h) imgs ->
  exists out, write_all imgs = Written out /\ read_all (out ++ rest) = Ok (imgs, rest).
Proof.
  intros Hw Hh Hn H.
  assert (Hs : Forall (sized w h) imgs).
  { eapply Forall_impl; [|exact H]; intros i (Ew & Eh & El).
    unfold sized, wf_image; rewrite Ew, Eh; repeat split; try lia; nia. }
  unfold write_all.
  destruct imgs as [|i0 imgs'] eqn:Ei.
  - eexists; split; [reflexivity|].
    rewrite <- !app_assoc; apply (read_all_write 0 0 [] rest); cbn; lia || constructor.
  - pose proof (Forall_inv H) as (Ew & Eh & _); rewrite Ew, Eh.
    rewrite write_images_ok by exact Hs.
    eexists; split; [reflexivity|].
    rewrite <- !app_assoc; apply read_all_write; assumption.
Qed.


(** [Image::read_all] refuses any version other than 0. *)
Theorem read_all_unsupported_version (v : Z) (rest : list Z) :
  1 <= v <= 65535 ->
  read_all (bs "ahi" ++ fmt_dec v ++ 32 :: rest) = Err (UnsupportedVersion v).
Proof.
  intro Hv; unfold read_all.
  read_step read_exactly_app; read_step read_header_uint_fmt_dec.
  destruct (Z.eqb_spec v 0); [lia|]; reflexivity.
Qed.

End ImageExtras.


Section LibHeader.

Lemma lib_loop_digits (t : Z) (ds rest : list Z) :
  forall v, digits_ok t ds -> 0 <= v -> dec_from v ds <= 65535 ->
  Lib.header_int_loop t v (ds ++ rest) = Lib.header_int_loop t (dec_from v ds) rest.
Proof.
  induction ds as [|b ds IH]; intros v Hds Hv Hle; [reflexivity|].
  apply digits_ok_cons in Hds as [[Hb Hbt] Hds].
  pose proof (dec_from_mono t ds (v * 10 + (b - 48)) Hds) as Hm.
  apply is_ascii_digit_range in Hb.
  cbn [app Lib.header_int_loop].
  destruct (Z.eqb_spec b t); [contradiction|].
  destruct (Z.leb_spec 48 b); [|lia]; destruct (Z.leb_spec b 57); [|lia]; cbn [andb].
  unfold dec_from in Hle, Hm |- *; cbn [fold_left] in Hle |- *.
  destruct (Z.ltb_spec MAX_HEADER_VALUE (v * 10 + (b - 48))); unfold MAX_HEADER_VALUE in *;
    [lia|].
  apply IH; [exact Hds|lia|exact Hle].
Qed.

Lemma lib_read_header_fmt_dec (t n : Z) (rest : list Z) :
  0 <= n <= 65535 -> is_ascii_digit t = false ->
  Lib.read_header_int t (fmt_dec n ++ t :: rest) = Ok (n, rest).
Proof.
  intros Hn Ht; destruct (fmt_dec_digits t n) as (_ & H2 & H3); try lia; auto.
  unfold Lib.read_header_int; rewrite lib_loop_digits; try lia; [|exact H2|].
  - unfold dec_value in H3; rewrite H3; cbn; rewrite Z.eqb_refl; reflexivity.
  - unfold dec_value in H3; lia.
Qed.

(** lib.rs's [read_header_int] reads a decimal field up to its terminator or
    to the end of the input; an empty field reads as 0, and a sign is
    refused as an invalid character. *)
Theorem lib_read_header_int_fields (t n : Z) (rest : list Z) :
  0 <= n <= 65535 -> is_ascii_digit t = false -> t <> 45 ->
  Lib.read_header_int t (fmt_dec n ++ t :: rest) = Ok (n, rest) /\
  Lib.read_header_int t (fmt_dec n) = Ok (n, []) /\
  Lib.read_header_int t (t :: rest) = Ok (0, rest) /\
  Lib.read_header_int t (45 :: rest) = Err (InvalidDigit 45).
Proof.
  intros Hn Ht Hs; split; [apply lib_read_header_fmt_dec; assumption|split; [|split]].
  - destruct (fmt_dec_digits t n) as (_ & H2 & H3); try lia; auto.
    unfold Lib.read_header_int; rewrite <- (app_nil_r (fmt_dec n)).
    rewrite lib_loop_digits; try lia; [|exact H2|].
    + unfold dec_value in H3; rewrite H3; reflexivity.
    + unfold dec_value in H3; lia.
  - unfold Lib.read_header_int; cbn; rewrite Z.eqb_refl; reflexivity.
  - unfold Lib.read_header_int; cbn [Lib.header_int_loop].
    destruct (Z.eqb_spec 45 t); [lia|]; reflexivity.
Qed.

(** lib.rs's [Image::write_all] then [Image::read_all] gives the images
    back, for images of one size whose header numbers fit in [u16]. *)
Theorem lib_write_all_read_all (imgs : list ImageRs.Image) (w h : Z) (rest : list Z) :
  0 <= w <= 65535 -> 0 <= h <= 65535 -> Z.of_nat (List.length imgs) <= 65535 ->
  Forall (fun i => ImageRs.width i = w /\ ImageRs.height i = h /\
                   Z.of_nat (List.length (ImageRs.pixels i)) = w * h) imgs ->
  exists out, Lib.write_all imgs = ImageRs.Written out /\
              Lib.read_all (out ++ rest) = Ok (imgs, rest).
Proof.
  intros Hw Hh Hn H.
  assert (Hs : Forall (sized w h) imgs).
  { eapply Forall_impl; [|exact H]; intros i (Ew & Eh & El).
    unfold sized, wf_image; rewrite Ew, Eh; repeat split; try lia; nia. }
  assert (Hr : forall w h imgs, 0 <= w <= 65535 -> 0 <= h <= 65535 ->
               Z.of_nat (List.length imgs) <= 65535 -> Forall (sized w h) imgs ->
               Lib.read_all (bs "ahi0 w" ++ fmt_dec w ++ bs " h" ++ fmt_dec h ++ bs " n"
                 ++ fmt_dec (Z.of_nat (List.length imgs)) ++ [10]
                 ++ flat_map (fun i => [10] ++ write_rows (Z.to_nat w) (Z.to_nat h)
                                                          (ImageRs.pixels i)) imgs ++ rest)
               = Ok (imgs, rest)).
  { clear; intros w h imgs Hw Hh Hn H.
    change (bs "ahi0 w") with (bs "ahi" ++ fmt_dec 0 ++ [32] ++ bs "w").
    change (bs " h") with ([32] ++ bs "h"); change (bs " n") with ([32] ++ bs "n").
    rewrite <- !app_assoc; cbn [app].
    unfold Lib.read_all.
    read_step read_exactly_app; read_step lib_read_header_fmt_dec.
    change (negb (0 =? 0)) with false; cbv iota.
    read_step read_exactly_app; read_step lib_read_header_fmt_dec.
    read_step read_exactly_app; read_step lib_read_header_fmt_dec.
    read_step read_exactly_app; read_step lib_read_header_fmt_dec.
    rewrite Nat2Z.id; apply read_all_images_write, H. }
  unfold Lib.write_all, ImageRs.write_all.
  destruct imgs as [|i0 imgs'] eqn:Ei.
  - eexists; split; [reflexivity|].
    rewrite <- !app_assoc; apply (Hr 0 0 []); cbn; lia || constructor.
  - pose proof (Forall_inv H) as (Ew & Eh & _); rewrite Ew, Eh.
    rewrite write_images_ok by exact Hs.
    eexists; split; [reflexivity|].
    rewrite <- !app_assoc; apply Hr; assumption.
Qed.

End LibHeader.


Section UtilExtras.

Lemma list_Z_eqb_iff (a b : list Z) : list_Z_eqb a b = true <-> a = b.
Proof.
  revert b; induction a as [|x a IH]; intros [|y b]; cbn; try (split; congruence).
  rewrite andb_true_iff, Z.eqb_eq, IH; split; [intros [-> ->]; reflexivity|].
  intro E; injection E as -> ->; split; reflexivity.
Qed.

Lemma read_exact_result (n : nat) (s : list Z) :
  read_exact n s = if (List.length s <? n)%nat then Err UnexpectedEof
                   else Ok (firstn n s, skipn n s).
Proof.
  revert s; induction n as [|n IH]; intros [|b s]; try reflexivity.
  cbn [read_exact]; rewrite IH; cbn [List.length].
  destruct (Nat.ltb_spec (List.length s) n), (Nat.ltb_spec (S (List.length s)) (S n));
    try lia; reflexivity.
Qed.

(** [read_exactly] succeeds exactly on input that starts with the expected
    bytes, and consumes them; on a shorter input it fails with the
    [read_exact] end-of-file error, otherwise with "expected ..., found ..."
    naming the bytes it read. *)
Theorem read_exactly_result (e s : list Z) :
  (forall rest, read_exactly e s = Ok (tt, rest) <-> s = e ++ rest) /\
  ((List.length s < List.length e)%nat -> read_exactly e s = Err UnexpectedEof) /\
  ((List.length e <= List.length s)%nat -> firstn (List.length e) s <> e ->
   read_exactly e s = Err (UnexpectedToken e (firstn (List.length e) s))).
Proof.
  assert (E : read_exactly e s =
              if (List.length s <? List.length e)%nat then Err UnexpectedEof
              else if list_Z_eqb (firstn (List.length e) s) e
                   then Ok (tt, skipn (List.length e) s)
                   else Err (UnexpectedToken e (firstn (List.length e) s))).
  { unfold read_exactly, bind; rewrite read_exact_result.
    destruct (Nat.ltb _ _); [reflexivity|].
    destruct (list_Z_eqb _ _); reflexivity. }
  split; [|split].
  - intro rest; split.
    + rewrite E; destruct (Nat.ltb_spec (List.length s) (List.length e)); [discriminate|].
      destruct (list_Z_eqb _ _) eqn:Eq; [|discriminate].
      apply list_Z_eqb_iff in Eq; intro Ok; injection Ok as <-.
      rewrite <- Eq at 1; symmetry; apply firstn_skipn.
    + intros ->; apply read_exactly_app.
  - intro H; rewrite E; destruct (Nat.ltb_spec (List.length s) (List.length e));
      [reflexivity|lia].
  - intros H Hne; rewrite E; destruct (Nat.ltb_spec (List.length s) (List.length e)); [lia|].
    destruct (list_Z_eqb _ _) eqn:Eq; [apply list_Z_eqb_iff in Eq; contradiction|reflexivity].
Qed.

Lemma read_hex_digits_eof (t : Z) (ds : list Z) :
  Forall (fun b => is_hex_byte b /\ b <> t) ds ->
  read_hex_digits t ds = Ok (map digit_of ds, []).
Proof.
  induction 1 as [|b ds [Hb Hbt] _ IH]; [reflexivity|]; cbn [read_hex_digits map].
  destruct (Z.eqb_spec b t); [contradiction|].
  unfold digit_of at 1; unfold is_hex_byte in Hb.
  destruct (hex_digit_value b); [|contradiction]; rewrite IH; reflexivity.
Qed.

Lemma read_hex_digits_bad (t b : Z) (ds rest : list Z) :
  Forall (fun x => is_hex_byte x /\ x <> t) ds -> b <> t -> ~ is_hex_byte b ->
  read_hex_digits t (ds ++ b :: rest) = Err (InvalidHexDigit b).
Proof.
  intros Hds Hbt Hb; induction Hds as [|x ds [Hx Hxt] _ IH]; cbn [app read_hex_digits].
  - destruct (Z.eqb_spec b t); [contradiction|].
    unfold is_hex_byte in Hb; destruct (hex_digit_value b); [|reflexivity].
    exfalso; apply Hb; discriminate.
  - destruct (Z.eqb_spec x t); [contradiction|].
    unfold is_hex_byte in Hx; destruct (hex_digit_value x); [|contradiction].
    rewrite IH; reflexivity.
Qed.

(** [read_hex_digits] reads hex digits (either case) up to the terminator,
    which it consumes, or up to the end of the input; the first other byte
    is an "invalid hex digit" error. *)
Theorem read_hex_digits_stops (t b : Z) (ds rest : list Z) :
  Forall (fun x => is_hex_byte x /\ x <> t) ds ->
  read_hex_digits t (ds ++ t :: rest) = Ok (map digit_of ds, rest) /\
  read_hex_digits t ds = Ok (map digit_of ds, []) /\
  (b <> t -> ~ is_hex_byte b -> read_hex_digits t (ds ++ b :: rest) = Err (InvalidHexDigit b)).
Proof.
  intro H; split; [apply read_hex_digits_app, H|split; [apply read_hex_digits_eof, H|]].
  intros Hbt Hb; apply read_hex_digits_bad; assumption.
Qed.

Lemma hex_upper_digits (n : Z) :
  0 <= n < 2 ^ 32 ->
  (1 <= List.length (map hex_upper (digits_of 16 n)) <= 8)%nat /\
  Forall (fun b => is_hex_byte b) (map hex_upper (digits_of 16 n)) /\
  hex_value (map digit_of (map hex_upper (digits_of 16 n))) = n.
Proof.
  intro Hn.
  destruct (digits_of_spec 16 n) as (Hne & Hds & Hv); try lia.
  pose proof (digits_of_length 16 n 7 ltac:(lia) ltac:(simpl; lia)) as Hlen.
  split; [|split].
  - rewrite length_map; destruct (digits_of 16 n); [contradiction|simpl in *; lia].
  - rewrite Forall_map; eapply Forall_impl; [|exact Hds]; intros d Hd.
    apply hex_upper_digit, Hd.
  - rewrite map_map.
    replace (map (fun d => digit_of (hex_upper d)) (digits_of 16 n)) with (digits_of 16 n);
      [exact Hv|].
    clear -Hds; induction Hds as [|d l Hd Hl IH]; [reflexivity|].
    cbn [map]; rewrite <- IH; f_equal; symmetry; apply hex_upper_digit, Hd.
Qed.

(** [read_hex_u32] reads back any [u32] written with [{:X}] before a
    terminator that is not a hex digit. *)
Theorem read_hex_u32_roundtrip (t n : Z) (rest : list Z) :
  0 <= n < 2 ^ 32 -> ~ is_hex_byte t ->
  read_hex_u32 t (fmt_X 0 n ++ t :: rest) = Ok (n, rest).
Proof.
  intros Hn Ht; destruct (hex_upper_digits n Hn) as (Hl & Hh & Hv).
  unfold fmt_X; cbn [Nat.sub repeat app].
  rewrite read_hex_u32_app; [rewrite Hv; reflexivity|exact Hl|].
  eapply Forall_impl; [|exact Hh]; intros b Hb; split; [exact Hb|intros ->; contradiction].
Qed.

(** [read_hex_u32] refuses an empty literal (at the terminator or at the end
    of the input) and a literal of more than eight digits, even one whose
    value fits. *)
Theorem read_hex_u32_limits (t : Z) (ds rest : list Z) :
  Forall (fun x => is_hex_byte x /\ x <> t) ds -> (8 < List.length ds)%nat ->
  read_hex_u32 t (t :: rest) = Err MissingHexLiteral /\
  read_hex_u32 t [] = Err MissingHexLiteral /\
  read_hex_u32 t (ds ++ t :: rest) = Err HexLiteralTooLarge.
Proof.
  intros H Hl; split; [unfold read_hex_u32, bind; cbn; rewrite Z.eqb_refl; reflexivity|].
  split; [reflexivity|].
  unfold read_hex_u32, bind; rewrite read_hex_digits_app by exact H.
  destruct ds as [|d ds']; [cbn in Hl; lia|]; cbn [map].
  destruct (Z.ltb_spec 8 (Z.of_nat (List.length (digit_of d :: map digit_of ds'))));
    [reflexivity|cbn [List.length] in *; rewrite length_map in *; lia].
Qed.

Lemma escape_default_read_quote (c : Z) (s : list Z) :
  char_from_u32_ok c = true ->
  read_char_escape 39 (escape_default c ++ s) = Ok (Some c, s).
Proof.
  intro Hc; unfold escape_default.
  destruct (Z.eqb_spec c 9); [subst; reflexivity|].
  destruct (Z.eqb_spec c 13); [subst; reflexivity|].
  destruct (Z.eqb_spec c 10); [subst; reflexivity|].
  destruct (Z.eqb_spec c 92); [subst; reflexivity|].
  destruct (Z.eqb_spec c 39); [subst; reflexivity|].
  destruct (Z.eqb_spec c 34); [subst; reflexivity|]; cbn [orb].
  destruct ((32 <=? c) && (c <=? 126)) eqn:Ep.
  - apply andb_true_iff in Ep as [E1 E2]; apply Z.leb_le in E1, E2.
    cbn [app]; unfold read_char_escape; unfold bind at 1; rewrite read_byte_cons;
      cbv beta iota.
    destruct (Z.eqb_spec c 39); [contradiction|].
    destruct (Z.eqb_spec c 92); [contradiction|].
    destruct (Z.ltb_spec c 32); [lia|]; destruct (Z.ltb_spec 126 c); [lia|].
    reflexivity.
  - assert (Hr : 0 <= c <= 1114111).
    { unfold char_from_u32_ok in Hc.
      apply orb_true_iff in Hc as [H|H]; apply andb_true_iff in H as [H1 H2];
        rewrite ?Z.leb_le, ?Z.ltb_lt in H1, H2; lia. }
    destruct (digits_of_spec 16 c) as (Hne & Hds & Hv); try lia.
    pose proof (digits_of_length 16 c 7 ltac:(lia) ltac:(simpl; lia)) as Hlen.
    assert (Hds' : Forall (fun b => is_hex_byte b /\ b <> 125) (map hex_lower (digits_of 16 c))).
    { rewrite Forall_map; eapply Forall_impl; [|exact Hds]; intros d Hd.
      destruct (hex_lower_digit d Hd) as [H1 _]; split; [exact H1|apply hex_byte_not, H1]. }
    assert (Hlen' : (1 <= List.length (map hex_lower (digits_of 16 c)) <= 8)%nat).
    { rewrite length_map; destruct (digits_of 16 c); [contradiction|simpl in *; lia]. }
    assert (Hval : hex_value (map digit_of (map hex_lower (digits_of 16 c))) = c).
    { rewrite map_map.
      replace (map (fun d => digit_of (hex_lower d)) (digits_of 16 c)) with (digits_of 16 c);
        [exact Hv|].
      clear -Hds; induction Hds as [|d l Hd Hl IH]; [reflexivity|].
      cbn [map]; rewrite <- IH; f_equal; symmetry; apply hex_lower_digit, Hd. }
    rewrite <- !app_assoc; cbn [app].
    unfold read_char_escape; change (bs "{") with [123]; cbn; unfold bind; cbn.
    rewrite (read_hex_u32_app 125 _ s Hlen' Hds'); cbn.
    rewrite Hval, Hc; reflexivity.
Qed.

(** [read_quoted_char] reads back a char written as ['] + [char::escape_default]
    + [']; an empty literal [''] is refused. *)
Theorem read_quoted_char_roundtrip (c : Z) (rest : list Z) :
  char_from_u32_ok c = true ->
  read_quoted_char ([39] ++ escape_default c ++ [39] ++ rest) = Ok (c, rest) /\
  read_quoted_char (39 :: 39 :: rest) = Err EmptyCharLiteral.
Proof.
  intro Hc; split; [|reflexivity].
  unfold read_quoted_char; change (bs "'") with [39].
  read_step read_exactly_app.
  rewrite ?bind_assoc; erewrite bind_ok; [|apply escape_default_read_quote, Hc].
  cbv beta iota; read_step read_exactly_app; reflexivity.
Qed.

(** [read_quoted_string] reads back a string written as ["] + its chars
    through [char::escape_default] + ["]. *)
Theorem read_quoted_string_roundtrip (str rest : list Z) :
  Forall (fun c => char_from_u32_ok c = true) str ->
  read_quoted_string ([34] ++ flat_map escape_default str ++ [34] ++ rest) = Ok (str, rest).
Proof. intro H; apply read_quoted_string_tag, H. Qed.

(** [read_list_of_i16s] reads back a list of [i16] written as ["[" + the
    values joined by ", " + "]"]. *)
Theorem read_list_of_i16s_roundtrip (vs rest : list Z) :
  Forall (fun v => -32768 <= v <= 32767) vs ->
  read_list_of_i16s (bs "[" ++ intercalate_comma (map fmt_i16 vs) ++ bs "]" ++ rest)
  = Ok (vs, rest).
Proof. intro H; apply read_list_of_i16s_metadata, H. Qed.

End UtilExtras.

Section PaletteExtras.

(** [Palette::set] then [Palette::get]: the slot set reads back, the other
    fifteen are unchanged, and the palette keeps its sixteen slots. *)
Theorem Palette_set_get (p : Palette) (c c' : Color) (v : rgba) :
  List.length (palette_rgba p) = 16%nat ->
  Palette_get (Palette_set p c v) c' =
    (if Color_index c =? Color_index c' then v else Palette_get p c') /\
  List.length (palette_rgba (Palette_set p c v)) = 16%nat.
Proof.
  destruct p as [l]; cbn [palette_rgba]; intro Hl.
  do 16 (destruct l as [|? l]; [discriminate|]); destruct l; [|discriminate].
  destruct c, c'; split; reflexivity.
Qed.

(** [Palette::write] then [Palette::read] gives the palette back when every
    slot is a byte quadruple and alpha 0 comes only with color 0. *)
Theorem Palette_read_write (p : Palette) (rest : list Z) :
  palette_ok p -> Palette_read (Palette_write p ++ rest) = Ok (p, rest).
Proof.
  intros (Hl & Hs); unfold Palette_read, Palette_write.
  rewrite <- Hl; erewrite bind_ok; [|apply read_slots_write, Hs].
  destruct p; reflexivity.
Qed.

End PaletteExtras.


Lemma flip_horz_mirror_witness :
  let img := ImageRs.mkImage 2 3 [Black; Red; Green; Blue; White; Gray] in
  exists img', ImageRs.flip_horz img = Some img' /\ ImageRs.flip_horz img' = Some img.
Proof.
  intro img.
  destruct (flip_horz_mirror img ltac:(unfold img, wf_image; cbn; lia))
    as (img' & E & _ & _ & _ & E2).
  exists img'; split; assumption.
Defined.

Lemma flip_vert_mirror_witness :
  let img := ImageRs.mkImage 2 3 [Black; Red; Green; Blue; White; Gray] in
  exists img', ImageRs.flip_vert img = Some img' /\ ImageRs.flip_vert img' = Some img.
Proof.
  intro img.
  destruct (flip_vert_mirror img ltac:(unfold img, wf_image; cbn; lia))
    as (img' & E & _ & _ & _ & E2).
  exists img'; split; assumption.
Defined.

Lemma rotate_cw_pixels_witness :
  let img := ImageRs.mkImage 2 3 [Black; Red; Green; Blue; White; Gray] in
  exists img', ImageRs.rotate_cw img = Some img' /\ ImageRs.rotate_ccw img' = Some img.
Proof.
  intro img.
  destruct (rotate_cw_pixels img ltac:(unfold img, wf_image; cbn; lia))
    as (img' & E & _ & _ & _ & E2).
  exists img'; split; assumption.
Defined.

Lemma rotate_ccw_pixels_witness :
  let img := ImageRs.mkImage 2 3 [Black; Red; Green; Blue; White; Gray] in
  exists img', ImageRs.rotate_ccw img = Some img' /\ ImageRs.rotate_cw img' = Some img.
Proof.
  intro img.
  destruct (rotate_ccw_pixels img ltac:(unfold img, wf_image; cbn; lia))
    as (img' & E & _ & _ & _ & E2).
  exists img'; split; assumption.
Defined.

Lemma index_set_get_witness :
  let img := ImageRs.mkImage 2 3 [Black; Red; Green; Blue; White; Gray] in
  exists img', ImageRs.index_set img 1 2 Cyan = Some img' /\ ImageRs.index img' 1 2 = Some Cyan.
Proof.
  intro img.
  destruct (index_set_get img 1 2 Cyan ltac:(unfold img, wf_image; cbn; lia)
              ltac:(cbn; lia) ltac:(cbn; lia))
    as (img' & E & _ & _ & _ & E2 & _).
  exists img'; split; assumption.
Defined.


Lemma clear_is_new_witness :
  let img := ImageRs.mkImage 2 3 [Black; Red; Green; Blue; White; Gray] in
  ImageRs.clear img = ImageRs.new 2 3.
Proof. intro img; apply (clear_is_new img); unfold img, wf_image; cbn; lia. Defined.

Lemma fill_rect_pixels_witness :
  let img := ImageRs.mkImage 2 3 [Black; Red; Green; Blue; White; Gray] in
  exists img', ImageRs.fill_rect img (-1) 1 2 5 Cyan = Some img'.
Proof.
  intro img.
  destruct (fill_rect_pixels img (-1) 1 2 5 Cyan ltac:(unfold img, wf_image; cbn; lia))
    as (img' & E & _); try lia.
  exists img'; exact E.
Defined.



Lemma write_all_read_all_witness :
  let img := ImageRs.mkImage 2 3 [Black; Red; Green; Blue; White; Gray] in
  exists out, ImageRs.write_all [img; img] = ImageRs.Written out /\
              ImageRs.read_all (out ++ []) = Ok ([img; img], []).
Proof.
  intro img.
  apply (write_all_read_all [img; img] 2 3 []); try (cbn; lia).
  repeat constructor.
Defined.


Lemma read_all_unsupported_version_witness :
  ImageRs.read_all (bs "ahi" ++ fmt_dec 1 ++ 32 :: []) = Err (UnsupportedVersion 1).
Proof. apply read_all_unsupported_version; lia. Defined.

Lemma lib_read_header_int_fields_witness :
  Lib.read_header_int 32 (fmt_dec 640 ++ 32 :: []) = Ok (640, []) /\
  Lib.read_header_int 32 (32 :: []) = Ok (0, []).
Proof.
  destruct (lib_read_header_int_fields 32 640 [] ltac:(lia) eq_refl ltac:(lia))
    as (H1 & _ & H3 & _).
  split; assumption.
Defined.

Lemma lib_write_all_read_all_witness :
  let img := ImageRs.mkImage 2 3 [Black; Red; Green; Blue; White; Gray] in
  exists out, Lib.write_all [img; img] = ImageRs.Written out /\
              Lib.read_all (out ++ []) = Ok ([img; img], []).
Proof.
  intro img.
  apply (lib_write_all_read_all [img; img] 2 3 []); try (cbn; lia).
  repeat constructor.
Defined.

Lemma read_hex_digits_stops_witness :
  read_hex_digits 59 ([97; 70; 48] ++ 59 :: []) = Ok ([10; 15; 0], []) /\
  read_hex_digits 59 [97; 70; 48] = Ok ([10; 15; 0], []).
Proof.
  destruct (read_hex_digits_stops 59 32 [97; 70; 48] [])
    as (H1 & H2 & _).
  - repeat constructor; try (unfold is_hex_byte; cbn; discriminate); lia.
  - split; assumption.
Defined.

Lemma read_hex_u32_roundtrip_witness :
  read_hex_u32 32 (fmt_X 0 3054 ++ 32 :: []) = Ok (3054, []).
Proof.
  apply read_hex_u32_roundtrip; [lia|].
  unfold is_hex_byte; cbn; intro H; apply H; reflexivity.
Defined.

Lemma read_hex_u32_limits_witness :
  read_hex_u32 32 (repeat 48 9 ++ 32 :: []) = Err HexLiteralTooLarge.
Proof.
  apply (read_hex_u32_limits 32 (repeat 48 9) []); [|cbn; lia].
  repeat constructor; try (unfold is_hex_byte; cbn; discriminate); lia.
Defined.

Lemma read_quoted_char_roundtrip_witness :
  read_quoted_char ([39] ++ escape_default 10 ++ [39] ++ []) = Ok (10, []).
Proof. apply read_quoted_char_roundtrip; reflexivity. Defined.

Lemma read_quoted_string_roundtrip_witness :
  read_quoted_string ([34] ++ flat_map escape_default [104; 105; 10] ++ [34] ++ [])
  = Ok ([104; 105; 10], []).
Proof. apply read_quoted_string_roundtrip; repeat constructor. Defined.

Lemma read_list_of_i16s_roundtrip_witness :
  read_list_of_i16s (bs "[" ++ intercalate_comma (map fmt_i16 [-32768; 0; 7]) ++ bs "]" ++ [])
  = Ok ([-32768; 0; 7], []).
Proof. apply read_list_of_i16s_roundtrip; repeat constructor; lia. Defined.

Lemma Palette_set_get_witness :
  Palette_get (Palette_set DEFAULT_PALETTE Red (1, 2, 3, 4)) Red = (1, 2, 3, 4).
Proof. exact (proj1 (Palette_set_get DEFAULT_PALETTE Red Red (1, 2, 3, 4) eq_refl)). Defined.

Lemma Palette_read_write_witness :
  Palette_read (Palette_write DEFAULT_PALETTE ++ []) = Ok (DEFAULT_PALETTE, []).
Proof.
  apply Palette_read_write; split; [reflexivity|].
  apply Forall_forall; intros x Hx; cbn in Hx.
  repeat (destruct Hx as [<-|Hx];
          [unfold slot_ok; repeat split; try lia; first [left; lia | right; reflexivity]|]).
  destruct Hx.
Defined.
